(** * QuizForm: navigation state machine and submission orchestrator

    A shallow embedding of [src/components/quiz-form/QuizForm.tsx]:
    the conditional-branching helpers ([findFieldById], [getFieldIndex],
    [evaluateConditionalNext], [getNextFieldId]), the handlers of the
    [useFormLogic] hook ([handleInputChange], [handleCheckboxToggle],
    [validateCurrentField], [handleNext], [handlePrevious]) and the
    [MultiActionSubmissionService] class ([executeActions],
    [executeActionWithRetry], [executeAction], [evaluateCondition]).

    Conventions of the embedding.
    - A JavaScript string is a [string]; its characters are the code units
      below 256.
    - A plain object used as a dictionary ([formData], [conditionalNext]) is
      a [gmap string _] holding its own properties. A key that only hits a
      property inherited from [Object.prototype] reads, in [conditionalNext],
      a value that is not a string and equals no field id, which behaves
      like a missing entry. In [formData] such a read is not harmless: an
      inherited member passes the required-field validation. [readAnswer]
      therefore follows the prototype chain, with [objectPrototype] as the
      table of inherited members.
    - An optional property is an [option]; a property that is only ever
      tested for truthiness is a [bool].
    - Integers stand for the numbers the form handles ([order],
      [retryAttempts], numeric answers). *)

From Stdlib Require Import ZArith Lia Ascii String.
From stdpp Require Import base option strings list gmap pretty sorting.

Local Open Scope Z_scope.
Local Open Scope string_scope.
Local Open Scope list_scope.

(** ** JavaScript values held in the answer mapping

    [VObject text] is a function, or an object that is neither an array nor
    a string, such as the members of [Object.prototype]; [text] is what its
    [toString()] returns. *)

Module Js.

Inductive value : Type :=
| VUndefined
| VNull
| VStr (s : string)
| VNum (n : Z)
| VArr (l : list string)
| VObject (text : string).

#[global] Instance value_eq_dec : EqDecision value.
Proof. solve_decision. Defined.

(** [a.join(",")] on an array of strings. *)
Definition join (sep : string) (l : list string) : string := String.concat sep l.

(** [v?.toString()], [None] when the optional chain short-circuits. *)
Definition toString (v : value) : option string :=
  match v with
  | VUndefined | VNull => None
  | VStr s => Some s
  | VNum n => Some (pretty n)
  | VArr l => Some (join "," l)
  | VObject text => Some text
  end.

(** Truthiness of a string: only the empty string is falsy. *)
Definition truthyStr (s : string) : bool := negb (String.eqb s "").

(** [v?.toString() || ""]. *)
Definition toStringOrEmpty (v : value) : string :=
  match toString v with
  | Some s => if truthyStr s then s else ""
  | None => ""
  end.

(** Truthiness of an optional string property. *)
Definition truthyOpt (o : option string) : bool :=
  match o with
  | Some s => truthyStr s
  | None => false
  end.

(** White space and line terminators removed by [String.prototype.trim],
    among the code units below 256. *)
Definition isWhiteSpace (c : ascii) : bool :=
  let n := nat_of_ascii c in
  (Nat.eqb n 9 || Nat.eqb n 10 || Nat.eqb n 11 || Nat.eqb n 12 ||
   Nat.eqb n 13 || Nat.eqb n 32 || Nat.eqb n 160)%bool.

Fixpoint allWhiteSpace (s : string) : bool :=
  match s with
  | EmptyString => true
  | String c s' => isWhiteSpace c && allWhiteSpace s'
  end.

(** [s.trim() === ""]. *)
Definition trimIsEmpty (s : string) : bool := allWhiteSpace s.

End Js.
Import Js.

(** ** Field definitions *)

Inductive FieldType : Type :=
| text | email | number | select | radio | checkbox | textarea
| progress_process | content.

Record FormPage : Type := mkFormPage {
  id : string;
  type : FieldType;
  required : bool;
  conditionalNext : option (gmap string string);
  defaultNext : option string
}.

(** ** Conditional logic helpers *)

(** [fields.find((field) => field.id === fieldId)] *)
Definition findFieldById (fields : list FormPage) (fieldId : string)
  : option FormPage :=
  snd <$> list_find (λ field, id field = fieldId) fields.

(** [fields.findIndex(...)]; [None] stands for [-1]. *)
Definition getFieldIndex (fields : list FormPage) (fieldId : string)
  : option nat :=
  fst <$> list_find (λ field, id field = fieldId) fields.

(** The key looked up in [conditionalNext], by field type. *)
Definition answerKey (currentField : FormPage) (fieldValue : value) : string :=
  match type currentField with
  | radio | select => toStringOrEmpty fieldValue
  | checkbox =>
      match fieldValue with
      | VArr l => join "," l
      | _ => ""
      end
  | _ => toStringOrEmpty fieldValue
  end.

Definition evaluateConditionalNext
    (currentField : FormPage) (fieldValue : value) (fields : list FormPage)
  : option string :=
  match conditionalNext currentField with
  | None => None
  | Some rules =>
      let nextFieldId := rules !! answerKey currentField fieldValue in
      let viaRule :=
        if truthyOpt nextFieldId then
          match findFieldById fields (default "" nextFieldId) with
          | Some _ => nextFieldId
          | None => None
          end
        else None in
      match viaRule with
      | Some target => Some target
      | None =>
          if truthyOpt (defaultNext currentField) then
            match findFieldById fields (default "" (defaultNext currentField)) with
            | Some _ => defaultNext currentField
            | None => None
            end
          else None
      end
  end.

Definition getNextFieldId
    (currentField : FormPage) (fieldValue : value) (fields : list FormPage)
  : option string :=
  if truthyOpt (evaluateConditionalNext currentField fieldValue fields) then
    evaluateConditionalNext currentField fieldValue fields
  else
    match getFieldIndex fields (id currentField) with
    | Some currentIndex =>
        if bool_decide (currentIndex < length fields - 1)%nat then
          id <$> fields !! (currentIndex + 1)%nat
        else None
    | None => None
    end.

(** ** The [useFormLogic] hook: session state and handlers *)

Record FormState : Type := mkFormState {
  currentFieldId : string;
  navigationHistory : list string;
  formData : gmap string value;
  error : bool
}.

(** [fields[0]?.id || ""] *)
Definition firstFieldId (fields : list FormPage) : string :=
  match fields with
  | field :: _ => id field
  | [] => ""
  end.

(** The initial values of the [useState] cells. *)
Definition initialState (fields : list FormPage) : FormState :=
  {| currentFieldId := firstFieldId fields;
     navigationHistory := [firstFieldId fields];
     formData := ∅;
     error := false |}.

(** The members every plain object inherits from [Object.prototype]: the
    functions of the standard and of its annex B, [constructor] (the function
    [Object]) and the accessor [__proto__], which reads as [Object.prototype]
    itself. The texts of the functions are those V8 prints; no property below
    depends on them. *)
Definition nativeFunction (name : string) : value :=
  VObject ("function " +:+ name +:+ "() { [native code] }").

Definition objectPrototype : list (string * value) :=
  [ ("constructor", nativeFunction "Object");
    ("__defineGetter__", nativeFunction "__defineGetter__");
    ("__defineSetter__", nativeFunction "__defineSetter__");
    ("hasOwnProperty", nativeFunction "hasOwnProperty");
    ("__lookupGetter__", nativeFunction "__lookupGetter__");
    ("__lookupSetter__", nativeFunction "__lookupSetter__");
    ("isPrototypeOf", nativeFunction "isPrototypeOf");
    ("propertyIsEnumerable", nativeFunction "propertyIsEnumerable");
    ("toString", nativeFunction "toString");
    ("valueOf", nativeFunction "valueOf");
    ("__proto__", VObject "[object Object]");
    ("toLocaleString", nativeFunction "toLocaleString") ].

(** [({})[key]]: what a key reads on an object without own properties. *)
Definition inherited (key : string) : option value :=
  (list_to_map objectPrototype : gmap string value) !! key.

(** [formData[fieldId]]: the own property when there is one (stored by
    [{...prev, [fieldId]: value}], which defines own properties only), else
    the member inherited from [Object.prototype], else [undefined]. *)
Definition readAnswer (data : gmap string value) (fieldId : string) : value :=
  match data !! fieldId with
  | Some v => v
  | None => default VUndefined (inherited fieldId)
  end.

(** [const currentField = findFieldById(fields, currentFieldId)] *)
Definition currentField (fields : list FormPage) (st : FormState)
  : option FormPage :=
  findFieldById fields (currentFieldId st).

(** The effect "Initialize with first field if current field is invalid". *)
Definition resetIfInvalid (fields : list FormPage) (st : FormState) : FormState :=
  match currentField fields st, fields with
  | None, field :: _ =>
      {| currentFieldId := id field;
         navigationHistory := [id field];
         formData := formData st;
         error := error st |}
  | _, _ => st
  end.

Definition handleInputChange (fieldId : string) (v : value) (st : FormState)
  : FormState :=
  {| currentFieldId := currentFieldId st;
     navigationHistory := navigationHistory st;
     formData := <[fieldId := v]> (formData st);
     error := error st |}.

Definition handleCheckboxToggle (fieldId option : string) (st : FormState)
  : FormState :=
  let currentValues :=
    match readAnswer (formData st) fieldId with
    | VArr l => l
    | _ => []
    end in
  let newValues :=
    if bool_decide (option ∈ currentValues)
    then filter (λ v, v ≠ option) currentValues
    else currentValues ++ [option] in
  {| currentFieldId := currentFieldId st;
     navigationHistory := navigationHistory st;
     formData := <[fieldId := VArr newValues]> (formData st);
     error := error st |}.

(** [overrideValue !== undefined ? overrideValue : formData[field.id]] *)
Definition effectiveValue (field : FormPage) (overrideValue : value)
    (st : FormState) : value :=
  match overrideValue with
  | VUndefined => readAnswer (formData st) (id field)
  | v => v
  end.

(** [value !== undefined && value !== "" &&
     (!Array.isArray(value) || value.length > 0)] *)
Definition isValid (v : value) : bool :=
  match v with
  | VUndefined => false
  | VStr s => truthyStr s
  | VArr l => bool_decide (0 < length l)%nat
  | VNull | VNum _ | VObject _ => true
  end.

Definition validateCurrentField (fields : list FormPage)
    (overrideValue : value) (st : FormState) : bool :=
  match currentField fields st with
  | Some field =>
      if required field then isValid (effectiveValue field overrideValue st)
      else true
  | None => true
  end.

Definition handleNext (fields : list FormPage) (overrideValue : value)
    (st : FormState) : FormState :=
  match currentField fields st with
  | None => st
  | Some field =>
      if negb (validateCurrentField fields overrideValue st) then
        {| currentFieldId := currentFieldId st;
           navigationHistory := navigationHistory st;
           formData := formData st;
           error := true |}
      else
        let currentValue := effectiveValue field overrideValue st in
        let nextFieldId := getNextFieldId field currentValue fields in
        if truthyOpt nextFieldId then
          {| currentFieldId := default "" nextFieldId;
             navigationHistory := navigationHistory st ++ [default "" nextFieldId];
             formData := formData st;
             error := false |}
        else st
  end.

Definition handlePrevious (st : FormState) : FormState :=
  let prev := navigationHistory st in
  if bool_decide (1 < length prev)%nat then
    let newHistory := take (length prev - 1) prev in
    let previousFieldId := default "" (newHistory !! (length newHistory - 1)%nat) in
    {| currentFieldId := previousFieldId;
       navigationHistory := newHistory;
       formData := formData st;
       error := false |}
  else
    {| currentFieldId := currentFieldId st;
       navigationHistory := prev;
       formData := formData st;
       error := false |}.

(** [isLastStep]: the memo deciding between "next" and "submit". *)
Definition isLastStep (fields : list FormPage) (st : FormState) : bool :=
  match currentField fields st with
  | None => true
  | Some field =>
      match getNextFieldId field (readAnswer (formData st) (id field)) fields with
      | None => true
      | Some _ => false
      end
  end.

(** User operations; after each one React re-renders and runs the effect. *)
Inductive Op : Type :=
| Advance (overrideValue : value)
| Retreat
| SubmitAnswer (fieldId : string) (v : value)
| Toggle (fieldId option : string).

Definition applyOp (fields : list FormPage) (op : Op) (st : FormState)
  : FormState :=
  resetIfInvalid fields
    match op with
    | Advance overrideValue => handleNext fields overrideValue st
    | Retreat => handlePrevious st
    | SubmitAnswer fieldId v => handleInputChange fieldId v st
    | Toggle fieldId option => handleCheckboxToggle fieldId option st
    end.

Definition run (fields : list FormPage) (ops : list Op) : FormState :=
  foldl (λ st op, applyOp fields op st) (resetIfInvalid fields (initialState fields)) ops.

(** ** Submission actions *)

Inductive ActionType : Type :=
| Webhook | Email | Airtable | GoogleSheets | Slack | Custom.

Inductive SuccessPolicy : Type := SuccessContinue | SuccessStop.
Inductive ErrorPolicy : Type := ErrorContinue | ErrorStop | ErrorRetry.

#[global] Instance SuccessPolicy_eq_dec : EqDecision SuccessPolicy.
Proof. solve_decision. Defined.
#[global] Instance ErrorPolicy_eq_dec : EqDecision ErrorPolicy.
Proof. solve_decision. Defined.

Module Action.
Record SubmissionAction : Type := mk {
  id : string;
  name : string;
  type : ActionType;
  enabled : bool;
  order : Z;
  endpoint : option string;
  apiKey : option string;
  condition : option string;
  onSuccess : option SuccessPolicy;
  onError : option ErrorPolicy;
  retryAttempts : option Z
}.
End Action.
Abbreviation SubmissionAction := Action.SubmissionAction.

Record FormSubmissionConfig : Type := mkConfig {
  actions : list SubmissionAction;
  executeInParallel : bool
}.

(** What a dispatch resolves with. *)
Inductive Payload : Type :=
| Sent                       (* [{ sent: true, ... }] *)
| Processed                  (* [{ processed: true }] *)
| Response (body : string).  (* [response.json()] *)

(** The object handed to every dispatch; [formData] is held by reference. *)
Record SubmissionData : Type := mkData {
  sd_formData : gmap string value;
  sd_navigationPath : list string
}.

Module Result.
Record ActionResult : Type := mk {
  action : string;
  success : bool;
  data : option Payload;
  error : option string
}.
End Result.
Abbreviation ActionResult := Result.ActionResult.

Record Summary : Type := mkSummary {
  successful : nat;
  failed : nat;
  skipped : nat
}.

Module Outcome.
Record t : Type := mk {
  success : bool;
  results : list ActionResult;
  summary : Summary
}.
End Outcome.

(** ** The host: expression evaluation, network and timers

    [evaluateCondition] hands the condition text to the host's [Function]
    constructor and calls the result on the answers object; [executeAction]
    reaches the network through [fetch]. Both are taken as an interface:
    - [parses c]: [new Function("formData", `return ${c}`)] does not throw;
    - [call c answers w]: running that function on [answers] in world [w];
      it returns a truthiness or throws, and may change the world and the
      answers object it was given;
    - [fetch a d w]: the request built for action [a] from [d], resolved with
      a body or rejected (network error, non-ok status, unreadable body). *)

Inductive CallOutcome : Type :=
| Returned (truthy : bool)
| Threw.

Class Host : Type := {
  World : Type;
  parses : string → bool;
  call : string → gmap string value → World → CallOutcome * gmap string value * World;
  fetch : SubmissionAction → SubmissionData → World → (string + string) * World
}.

(** Observable steps of a run, in order. *)
Inductive Event : Type :=
| EvWarnCondition (condition : string)  (* "Invalid condition expression" *)
| EvDispatch (actionId : string)        (* [executeAction] entered *)
| EvDelay (ms : Z).                     (* [setTimeout(resolve, ms)] awaited *)

#[global] Instance Event_eq_dec : EqDecision Event.
Proof. solve_decision. Defined.

Section Service.
Context `{H : Host}.

Record Env : Type := mkEnv {
  world : World;
  trace : list Event
}.

(** Promise-returning code: a state monad over [Env] whose computations
    either resolve ([inr]) or reject with an error message ([inl]). *)
Definition M (A : Type) : Type := Env → (string + A) * Env.

Definition ret {A} (a : A) : M A := λ e, (inr a, e).
Definition throw {A} (msg : string) : M A := λ e, (inl msg, e).
Definition bind {A B} (m : M A) (k : A → M B) : M B :=
  λ e, match m e with
       | (inr a, e') => k a e'
       | (inl msg, e') => (inl msg, e')
       end.
Definition catch {A} (m : M A) (handler : string → M A) : M A :=
  λ e, match m e with
       | (inr a, e') => (inr a, e')
       | (inl msg, e') => handler msg e'
       end.
Definition emit (ev : Event) : M unit :=
  λ e, (inr (), {| world := world e; trace := trace e ++ [ev] |}).

Notation "'let*' x ':=' m 'in' k" := (bind m (λ x, k))
  (at level 10, x name, m at level 100, k at level 200).
Notation "'await' m 'in' k" := (bind m (λ _, k))
  (at level 10, m at level 100, k at level 200).

(** [await fetch(...)] followed by the [response.ok] check and
    [response.json()]. *)
Definition request (a : SubmissionAction) (d : SubmissionData) : M string :=
  λ e, let '(r, w) := fetch a d (world e) in
       (r, {| world := w; trace := trace e |}).

Definition executeWebhookAction (a : SubmissionAction) (d : SubmissionData)
  : M Payload :=
  if negb (truthyOpt (Action.endpoint a)) then
    throw "Webhook endpoint not configured"
  else
    let* body := request a d in ret (Response body).

Definition executeEmailAction (a : SubmissionAction) (d : SubmissionData)
  : M Payload := ret Sent.

Definition executeAirtableAction (a : SubmissionAction) (d : SubmissionData)
  : M Payload :=
  if negb (truthyOpt (Action.endpoint a)) || negb (truthyOpt (Action.apiKey a)) then
    throw "Airtable configuration incomplete"
  else
    let* body := request a d in ret (Response body).

Definition executeGoogleSheetsAction (a : SubmissionAction) (d : SubmissionData)
  : M Payload :=
  if negb (truthyOpt (Action.endpoint a)) then
    throw "Google Sheets endpoint not configured"
  else
    let* body := request a d in ret (Response body).

Definition executeSlackAction (a : SubmissionAction) (d : SubmissionData)
  : M Payload :=
  if negb (truthyOpt (Action.endpoint a)) then
    throw "Slack webhook URL not configured"
  else
    await request a d in ret Sent.

Definition executeCustomAction (a : SubmissionAction) (d : SubmissionData)
  : M Payload :=
  if truthyOpt (Action.endpoint a) then executeWebhookAction a d
  else ret Processed.

Definition executeAction (a : SubmissionAction) (d : SubmissionData)
  : M Payload :=
  await emit (EvDispatch (Action.id a)) in
  match Action.type a with
  | Webhook => executeWebhookAction a d
  | Email => executeEmailAction a d
  | Airtable => executeAirtableAction a d
  | GoogleSheets => executeGoogleSheetsAction a d
  | Slack => executeSlackAction a d
  | Custom => executeCustomAction a d
  end.

(** [action.retryAttempts || 1] *)
Definition maxAttempts (a : SubmissionAction) : Z :=
  match Action.retryAttempts a with
  | Some n => if (n =? 0)%Z then 1 else n
  | None => 1
  end.

(** The recursion of [executeActionWithRetry]; [fuel] bounds the calls that
    remain and is chosen by [executeActionWithRetry] so that it never runs
    out (lemma [executeActionWithRetry_unfold]). *)
Fixpoint retryFrom (fuel : nat) (a : SubmissionAction) (d : SubmissionData)
    (attempt : Z) : M Payload :=
  catch (executeAction a d) (λ msg,
    if (attempt <? maxAttempts a)%Z && bool_decide (Action.onError a = Some ErrorRetry)
    then
      await emit (EvDelay (2 ^ attempt * 1000)%Z) in
      match fuel with
      | S fuel' => retryFrom fuel' a d (attempt + 1)
      | O => throw msg
      end
    else throw msg).

Definition executeActionWithRetry (a : SubmissionAction) (d : SubmissionData)
    (attempt : Z) : M Payload :=
  retryFrom (Z.to_nat (maxAttempts a - attempt)) a d attempt.

(** [console.warn("Invalid condition expression:", ...)] *)
Definition warnCondition (c : string) (e : Env) : Env :=
  {| world := world e; trace := trace e ++ [EvWarnCondition c] |}.

(** [evaluateCondition]: synchronous and never throwing. Besides the boolean
    it yields the answers object as the expression left it. *)
Definition evaluateCondition (condition : option string)
    (formData : gmap string value) (e : Env)
  : bool * gmap string value * Env :=
  match condition with
  | None => (true, formData, e)
  | Some c =>
      if negb (truthyStr c) || trimIsEmpty c then (true, formData, e)
      else if negb (parses c) then (true, formData, warnCondition c e)
      else
        let '(r, formData', w) := call c formData (world e) in
        match r with
        | Returned truthy =>
            (truthy, formData', {| world := w; trace := trace e |})
        | Threw =>
            (true, formData',
             warnCondition c {| world := w; trace := trace e |})
        end
  end.

(** [(a, b) => a.order - b.order] under the stable [Array.prototype.sort]:
    an element goes in front of the first one whose order is not smaller. *)
Fixpoint insertByOrder (a : SubmissionAction) (l : list SubmissionAction)
  : list SubmissionAction :=
  match l with
  | [] => [a]
  | b :: l' =>
      if (Action.order a <=? Action.order b)%Z then a :: b :: l'
      else b :: insertByOrder a l'
  end.

Definition sortByOrder (l : list SubmissionAction) : list SubmissionAction :=
  foldr insertByOrder [] l.

(** [.filter((action) => this.evaluateCondition(action.condition, formData))],
    the conditions being evaluated left to right. *)
Fixpoint filterByCondition (l : list SubmissionAction)
    (formData : gmap string value) (e : Env)
  : list SubmissionAction * gmap string value * Env :=
  match l with
  | [] => ([], formData, e)
  | a :: l' =>
      let '(keep, formData1, e1) :=
        evaluateCondition (Action.condition a) formData e in
      let '(rest, formData2, e2) := filterByCondition l' formData1 e1 in
      (if keep then a :: rest else rest, formData2, e2)
  end.

Definition enabledOnly (l : list SubmissionAction) : list SubmissionAction :=
  List.filter Action.enabled l.

Definition succeeded (a : SubmissionAction) (p : Payload) : ActionResult :=
  {| Result.action := Action.name a; Result.success := true;
     Result.data := Some p; Result.error := None |}.

Definition errored (a : SubmissionAction) (msg : string) : ActionResult :=
  {| Result.action := Action.name a; Result.success := false;
     Result.data := None; Result.error := Some msg |}.

(** Parallel branch: [executeAction(...).then(...).catch(...)] for every
    action, started in array order; [Promise.all] keeps that order. *)
Fixpoint parallelResults (l : list SubmissionAction) (d : SubmissionData)
    (e : Env) : list ActionResult * Env :=
  match l with
  | [] => ([], e)
  | a :: l' =>
      let '(r, e1) :=
        match executeAction a d e with
        | (inr p, e1) => (succeeded a p, e1)
        | (inl msg, e1) => (errored a msg, e1)
        end in
      let '(rs, e2) := parallelResults l' d e1 in
      (r :: rs, e2)
  end.

(** Sequential branch: the [for ... of] loop with its two [break]s. *)
Fixpoint sequentialLoop (l : list SubmissionAction) (d : SubmissionData)
    (results : list ActionResult) (summary : Summary) (e : Env)
  : list ActionResult * Summary * Env :=
  match l with
  | [] => (results, summary, e)
  | a :: l' =>
      match executeActionWithRetry a d 1 e with
      | (inr p, e1) =>
          let results1 := results ++ [succeeded a p] in
          let summary1 :=
            {| successful := S (successful summary);
               failed := failed summary;
               skipped := skipped summary |} in
          if bool_decide (Action.onSuccess a = Some SuccessStop)
          then (results1, summary1, e1)
          else sequentialLoop l' d results1 summary1 e1
      | (inl msg, e1) =>
          let results1 := results ++ [errored a msg] in
          let summary1 :=
            {| successful := successful summary;
               failed := S (failed summary);
               skipped := skipped summary |} in
          if bool_decide (Action.onError a = Some ErrorStop)
          then (results1, summary1, e1)
          else sequentialLoop l' d results1 summary1 e1
      end
  end.

(** The actions that reach the execution stage, with the answers object and
    the environment after the conditions ran. *)
Definition enabledActions (config : FormSubmissionConfig)
    (formData : gmap string value) (e : Env)
  : list SubmissionAction * gmap string value * Env :=
  filterByCondition (sortByOrder (enabledOnly (actions config))) formData e.

Definition executeActions (config : FormSubmissionConfig)
    (formData : gmap string value) (navigationPath : list string) (e : Env)
  : Outcome.t * Env :=
  let '(ready, formData', e1) := enabledActions config formData e in
  let submissionData :=
    {| sd_formData := formData'; sd_navigationPath := navigationPath |} in
  let summary0 := {| successful := 0; failed := 0; skipped := 0 |} in
  let '(results, summary, e2) :=
    if executeInParallel config then
      let '(parallel, e2) := parallelResults ready submissionData e1 in
      (parallel,
       {| successful := length (List.filter Result.success parallel);
          failed := length (List.filter (λ r, negb (Result.success r)) parallel);
          skipped := skipped summary0 |},
       e2)
    else sequentialLoop ready submissionData [] summary0 e1 in
  let overallSuccess :=
    Nat.eqb (failed summary) 0 && Nat.ltb 0 (successful summary) in
  ({| Outcome.success := overallSuccess;
      Outcome.results := results;
      Outcome.summary := summary |}, e2).

End Service.

Arguments Env : clear implicits.
Arguments M : clear implicits.

(** ** A scripted host, used to run concrete scenarios

    Its world is a clock reading and a queue of network replies. It
    understands a handful of condition texts; any other text that parses
    throws when called. *)

Record Script : Type := mkScript {
  clock : nat;
  replies : list (string + string)
}.

Definition scriptedParses (c : string) : bool :=
  negb (bool_decide (c ∈ ["formData."; "("; "1 +"])).

Definition scriptedCall (c : string) (answers : gmap string value) (w : Script)
  : CallOutcome * gmap string value * Script :=
  if String.eqb c "true" then (Returned true, answers, w)
  else if String.eqb c "false" then (Returned false, answers, w)
  else if String.eqb c "Date.now() % 2 === 0"
  then (Returned (Nat.even (clock w)), answers, w)
  else if String.eqb c "formData.plan === 'pro'"
  then (Returned (bool_decide (answers !! "plan" = Some (VStr "pro"))), answers, w)
  else (Threw, answers, w).

Definition scriptedFetch (a : SubmissionAction) (d : SubmissionData) (w : Script)
  : (string + string) * Script :=
  match replies w with
  | r :: rest => (r, {| clock := clock w; replies := rest |})
  | [] => (inl "Failed to fetch", w)
  end.

#[global] Instance scriptedHost : Host := {|
  World := Script;
  parses := scriptedParses;
  call := scriptedCall;
  fetch := scriptedFetch
|}.

Definition scriptedEnv (now : nat) (net : list (string + string))
  : Env scriptedHost :=
  {| world := ({| clock := now; replies := net |} : @World scriptedHost);
     trace := [] |}.

(** ** Vocabulary of the properties *)

(** A branch target counts when it is a non-empty id of an existing field. *)
Definition existingTarget (fields : list FormPage) (target : option string)
  : option string :=
  match target with
  | Some t =>
      if truthyStr t && bool_decide (is_Some (findFieldById fields t))
      then Some t else None
  | None => None
  end.

(** The field after [field] in declaration order. *)
Definition linearNext (fields : list FormPage) (field : FormPage)
  : option string :=
  match getFieldIndex fields (id field) with
  | Some i =>
      if bool_decide (i < length fields - 1)%nat
      then id <$> fields !! (i + 1)%nat else None
  | None => None
  end.

(** The precedence as the specification words it: the entry of
    [conditionalNext] for the answer, then [defaultNext], then linear order,
    skipping targets that do not exist. *)
Definition precedenceNext (field : FormPage) (answer : value)
    (fields : list FormPage) : option string :=
  match existingTarget fields
          (conditionalNext field ≫= λ rules, rules !! answerKey field answer) with
  | Some t => Some t
  | None =>
      match existingTarget fields (defaultNext field) with
      | Some d => Some d
      | None => linearNext fields field
      end
  end.

(** An answer that is empty or absent. *)
Definition emptyOrAbsent (v : value) : bool :=
  match v with
  | VUndefined => true
  | VStr s => String.eqb s ""
  | VArr l => bool_decide (l = [])
  | _ => false
  end.

(** The field [handleNext] moves to, if it moves. *)
Definition advanceTarget (fields : list FormPage) (overrideValue : value)
    (st : FormState) : option string :=
  match currentField fields st with
  | Some field =>
      if validateCurrentField fields overrideValue st then
        existingTarget fields
          (getNextFieldId field (effectiveValue field overrideValue st) fields)
      else None
  | None => None
  end.

(** The shape the session keeps: a history that starts at the first field and
    ends at the current one. *)
Definition wellFormed (fields : list FormPage) (st : FormState) : Prop :=
  head (navigationHistory st) = Some (firstFieldId fields) ∧
  last (navigationHistory st) = Some (currentFieldId st).

(** Ascending by [order]. *)
Definition byOrder : relation SubmissionAction :=
  λ a b, (Action.order a ≤ Action.order b)%Z.

(** The events of [more + 1] attempts on one action, the first of them
    numbered [attempt]: each attempt but the last is followed by the back-off
    delay of [2 ^ attempt] seconds. *)
Fixpoint retrySchedule (actionId : string) (attempt : Z) (more : nat)
  : list Event :=
  EvDispatch actionId ::
  match more with
  | O => []
  | S more' =>
      EvDelay (2 ^ attempt * 1000)%Z :: retrySchedule actionId (attempt + 1) more'
  end.

(** How often an action was dispatched, and the delays that were awaited. *)
Definition dispatches (actionId : string) (events : list Event) : nat :=
  length (filter (λ ev, ev = EvDispatch actionId) events).

Definition delaysOf (events : list Event) : list Z :=
  omap (λ ev, match ev with EvDelay ms => Some ms | _ => None end) events.

Section ServiceVocabulary.
Context `{H : Host}.

(** The environment once the back-off after attempt [attempt] has elapsed. *)
Definition delayed (attempt : Z) (e : Env H) : Env H :=
  {| world := world e; trace := trace e ++ [EvDelay (2 ^ attempt * 1000)%Z] |}.

(** Whether running [a] in [e] ends the sequential loop: it resolved under
    [onSuccess = "stop"], or rejected under [onError = "stop"]. *)
Definition stopsAt (a : SubmissionAction) (d : SubmissionData) (e : Env H)
  : bool :=
  match executeActionWithRetry a d 1 e with
  | (inr _, _) => bool_decide (Action.onSuccess a = Some SuccessStop)
  | (inl _, _) => bool_decide (Action.onError a = Some ErrorStop)
  end.

(** Whether the loop gets past every action of [l]. *)
Fixpoint runsThrough (l : list SubmissionAction) (d : SubmissionData)
    (e : Env H) : bool :=
  match l with
  | [] => true
  | a :: l' =>
      negb (stopsAt a d e) &&
      runsThrough l' d (executeActionWithRetry a d 1 e).2
  end.

End ServiceVocabulary.

(** ** Further code of the repository *)

(** *** Strings: [split] on a one-character separator and [trim] *)

Module JsString.

(** [s.split(sep)]: always at least one piece. *)
Fixpoint split (sep : ascii) (s : string) : list string :=
  match s with
  | EmptyString => [""]
  | String c s' =>
      if Ascii.eqb c sep then "" :: split sep s'
      else
        match split sep s' with
        | piece :: pieces => String c piece :: pieces
        | [] => [String c ""]
        end
  end.

Fixpoint trimStart (s : string) : string :=
  match s with
  | EmptyString => ""
  | String c s' => if isWhiteSpace c then trimStart s' else s
  end.

Fixpoint trimEnd (s : string) : string :=
  match s with
  | EmptyString => ""
  | String c s' =>
      match trimEnd s' with
      | EmptyString => if isWhiteSpace c then "" else String c ""
      | rest => String c rest
      end
  end.

(** [s.trim()] *)
Definition trim (s : string) : string := trimEnd (trimStart s).

(** Whether a character occurs in a string. *)
Fixpoint contains (c : ascii) (s : string) : bool :=
  match s with
  | EmptyString => false
  | String c' s' => Ascii.eqb c' c || contains c s'
  end.

End JsString.

(** *** [parseConditionalRules] and [convertFramerFieldsToFormPages] *)

(** [rules[key] = target] on a plain object: an assignment to ["__proto__"]
    of a string is ignored and creates no key. *)
Definition setProperty (key target : string) (rules : gmap string string)
  : gmap string string :=
  if String.eqb key "__proto__" then rules else <[key := target]> rules.

(** The body of the [forEach] over the pairs. *)
Definition addRule (rules : gmap string string) (pair : string)
  : gmap string string :=
  match JsString.split ":" pair with
  | answer :: fieldId :: _ =>
      if truthyStr answer && truthyStr fieldId
      then setProperty (JsString.trim answer) (JsString.trim fieldId) rules
      else rules
  | _ => rules
  end.

Definition parseConditionalRules (conditionalRules : string)
  : option (gmap string string) :=
  if negb (truthyStr conditionalRules) || trimIsEmpty conditionalRules then None
  else
    let rules := foldl addRule ∅ (JsString.split "," conditionalRules) in
    if bool_decide (0 < size rules)%nat then Some rules else None.

Module Framer.
Record FramerFormPage : Type := mk {
  id : option string;
  type : option FieldType;
  required : bool;
  useConditionalLogic : bool;
  conditionalRules : option string;
  defaultNext : option string
}.
End Framer.
Abbreviation FramerFormPage := Framer.FramerFormPage.

(** The callback of [framerFields.map((field, index) => ...)], restricted to
    the properties the navigation reads. *)
Definition convertField (index : nat) (field : FramerFormPage) : FormPage :=
  {| id :=
       if truthyOpt (Framer.id field) then default "" (Framer.id field)
       else "field-" +:+ pretty index;
     type := default text (Framer.type field);
     required := Framer.required field;
     conditionalNext :=
       if Framer.useConditionalLogic field
          && truthyOpt (Framer.conditionalRules field)
       then parseConditionalRules (default "" (Framer.conditionalRules field))
       else None;
     defaultNext :=
       if Framer.useConditionalLogic field
          && truthyOpt (Framer.defaultNext field)
       then Framer.defaultNext field
       else None |}.

Definition convertFramerFieldsToFormPages (framerFields : list FramerFormPage)
  : list FormPage :=
  imap convertField framerFields.

(** [canGoBack] *)
Definition canGoBack (st : FormState) : bool :=
  bool_decide (1 < length (navigationHistory st))%nat.

(** *** Auto-advance bookkeeping of [useFormLogic]

    The three refs, and what the handlers write to them; [now] is the reading
    of [Date.now()] at that moment. *)

Inductive NavigationType : Type := Forward | Back.

Record Refs : Type := mkRefs {
  lastUserInteraction : option (string * Z);
  navigationType : option NavigationType;
  backNavigationTime : option Z
}.

Definition initialRefs : Refs :=
  {| lastUserInteraction := None; navigationType := None;
     backNavigationTime := None |}.

(** [handleInputChange] and [handleCheckboxToggle] with
    [isUserInteraction = true]. *)
Definition noteUserInteraction (fieldId : string) (now : Z) (r : Refs) : Refs :=
  {| lastUserInteraction := Some (fieldId, now);
     navigationType := None;
     backNavigationTime := None |}.

(** [handleNext], when it moves. *)
Definition noteForward (r : Refs) : Refs :=
  {| lastUserInteraction := lastUserInteraction r;
     navigationType := Some Forward;
     backNavigationTime := None |}.

(** [handlePrevious] *)
Definition noteBack (now : Z) (r : Refs) : Refs :=
  {| lastUserInteraction := lastUserInteraction r;
     navigationType := Some Back;
     backNavigationTime := Some now |}.

(** [shouldAllowAutoAdvance]; [now1] and [now2] are the two readings of the
    clock it compares against. A time of [0] is falsy. *)
Definition shouldAllowAutoAdvance (r : Refs) (fieldId : string) (now1 now2 : Z)
  : bool :=
  match backNavigationTime r with
  | Some backNavTime =>
      if negb (backNavTime =? 0)%Z && (now1 - backNavTime <? 500)%Z then false
      else
        match lastUserInteraction r with
        | Some (interacted, timestamp) =>
            if negb (String.eqb interacted fieldId) then false
            else (now2 - timestamp <? 100)%Z
        | None => false
        end
  | None =>
      match lastUserInteraction r with
      | Some (interacted, timestamp) =>
          if negb (String.eqb interacted fieldId) then false
          else (now2 - timestamp <? 100)%Z
      | None => false
      end
  end.

(** The timer callback of [triggerAutoAdvance]. *)
Definition autoAdvance (fields : list FormPage) (hideNextButton : bool)
    (fieldId : string) (v : value) (r : Refs) (now1 now2 : Z) (st : FormState)
  : FormState :=
  if hideNextButton && shouldAllowAutoAdvance r fieldId now1 now2
  then handleNext fields v st
  else st.

(** *** [handleSubmit]

    The session as the submit handler sees it. The analytics pushes to the
    page's data layer are left out; the handler is taken to run in a browser,
    where building them does not throw. *)

Record Session : Type := mkSession {
  form : FormState;
  submitted : bool;
  isSubmitting : bool;
  submissionResult : option Outcome.t
}.

Section Submit.
Context `{H : Host}.

Definition handleSubmit (fields : list FormPage)
    (submissionActions : list SubmissionAction) (executeInParallel : bool)
    (s : Session) (e : Env H) : Session * Env H :=
  let st := form s in
  if negb (validateCurrentField fields VUndefined st) then
    ({| form := {| currentFieldId := currentFieldId st;
                   navigationHistory := navigationHistory st;
                   formData := formData st;
                   error := true |};
        submitted := submitted s;
        isSubmitting := isSubmitting s;
        submissionResult := submissionResult s |}, e)
  else if bool_decide (0 < length submissionActions)%nat then
    let config :=
      {| actions := submissionActions; executeInParallel := executeInParallel |} in
    let '(result, e1) :=
      executeActions config (formData st) (navigationHistory st) e in
    let answers := (enabledActions config (formData st) e).1.2 in
    if Outcome.success result then
      ({| form := {| currentFieldId := currentFieldId st;
                     navigationHistory := navigationHistory st;
                     formData := answers;
                     error := false |};
          submitted := true;
          isSubmitting := false;
          submissionResult := Some result |}, e1)
    else
      ({| form := {| currentFieldId := currentFieldId st;
                     navigationHistory := navigationHistory st;
                     formData := answers;
                     error := true |};
          submitted := submitted s;
          isSubmitting := false;
          submissionResult := submissionResult s |}, e1)
  else
    ({| form := {| currentFieldId := currentFieldId st;
                   navigationHistory := navigationHistory st;
                   formData := formData st;
                   error := false |};
        submitted := true;
        isSubmitting := false;
        submissionResult := submissionResult s |},
     {| world := world e; trace := trace e ++ [EvDelay 1000] |}).

End Submit.

(** *** The age selector ([handleDragEnd], [generateTicks]) *)

Module AgeSelector.

(** A number that may have become [NaN]. *)
Inductive num : Type :=
| Num (n : Z)
| NaN.

(** The wrap-around of [handleDragEnd]; [%] is the truncating remainder, and
    a remainder by zero is [NaN]. *)
Definition wrap (minAge maxAge newAge : Z) : num :=
  let range := (maxAge - minAge + 1)%Z in
  if (maxAge <? newAge)%Z then
    if (range =? 0)%Z then NaN
    else Num (minAge + Z.rem (newAge - minAge) range)
  else if (newAge <? minAge)%Z then
    if (range =? 0)%Z then NaN
    else Num (maxAge - Z.rem (minAge - newAge - 1) range)
  else Num newAge.

(** [handleDragEnd]: [ticksMoved] and [momentumTicks] are the two rounded tick
    counts; the result is what [onChange] is called with, if it is called. *)
Definition handleDragEnd (value minAge maxAge ticksMoved momentumTicks : Z)
  : option num :=
  let newAge := wrap minAge maxAge (value + ticksMoved + momentumTicks) in
  match newAge with
  | Num n => if (n =? value)%Z then None else Some newAge
  | NaN => Some NaN
  end.

Record Tick : Type := mkTick {
  age : Z;
  cycleOffset : Z;
  actualAge : Z
}.

(** [generateTicks]: three cycles of the ages from [minAge] to [maxAge]. *)
Definition generateTicks (minAge maxAge : Z) : list Tick :=
  cycle ← [-1; 0; 1]%Z;
  i ← seqZ minAge (maxAge - minAge + 1);
  [ {| age := i; cycleOffset := cycle * (maxAge - minAge + 1); actualAge := i |} ].

(** [centerCycleStartIndex + (age - minAge)] *)
Definition currentAgeIndex (minAge maxAge age : Z) : Z :=
  (maxAge - minAge + 1) + (age - minAge).

(** [isCurrentAge] of a tick. *)
Definition isCurrentAge (age : Z) (tick : Tick) : bool :=
  (actualAge tick =? age)%Z && (cycleOffset tick =? 0)%Z.

End AgeSelector.

(** *** Vocabulary for the further properties *)

(** A token of a rule text as an author means it: not empty, nothing to trim,
    and free of the two separators. *)
Definition cleanToken (s : string) : Prop :=
  s ≠ "" ∧ JsString.trim s = s ∧
  JsString.contains "," s = false ∧ JsString.contains ":" s = false.

(** White space that may surround a token: any blank string without the
    separators (none of which is white space). *)
Definition padding (s : string) : Prop := allWhiteSpace s = true.

(** One rule written out, with padding around the answer and the target. *)
Definition renderRule (rule : (string * string) * (string * string) * (string * string))
  : string :=
  let '(answerPad, targetPad, (answer, target)) := rule in
  (answerPad.1 +:+ answer +:+ answerPad.2) +:+ ":" +:+
  (targetPad.1 +:+ target +:+ targetPad.2).

(** A rule text: rules separated by commas. *)
Definition renderRules
    (rules : list ((string * string) * (string * string) * (string * string)))
  : string :=
  String.concat "," (renderRule <$> rules).

(** ** Forms and actions used in the scenarios *)

Module Scenario.

(** Fields = [Q1 (radio: "Yes" -> Q3, "No" -> Q2); Q2 (text); Q3 (text)]. *)
Definition Q1 : FormPage :=
  {| id := "Q1"; type := radio; required := true;
     conditionalNext := Some (list_to_map [("Yes", "Q3"); ("No", "Q2")]);
     defaultNext := None |}.
Definition Q2 : FormPage :=
  {| id := "Q2"; type := text; required := false;
     conditionalNext := None; defaultNext := None |}.
Definition Q3 : FormPage :=
  {| id := "Q3"; type := text; required := false;
     conditionalNext := None; defaultNext := None |}.
Definition quiz : list FormPage := [Q1; Q2; Q3].

(** A first field with a default target but no conditional rules. *)
Definition P1 : FormPage :=
  {| id := "P1"; type := text; required := false;
     conditionalNext := None; defaultNext := Some "Q3" |}.
Definition detour : list FormPage := [P1; Q2; Q3].

(** A required first field whose id is the name of a member of
    [Object.prototype]. *)
Definition member : FormPage :=
  {| id := "constructor"; type := text; required := true;
     conditionalNext := None; defaultNext := None |}.
Definition unanswered : list FormPage := [member; Q2].

Definition hook (i : string) (n : Z) (cond : option string)
    (s : option SuccessPolicy) (r : option ErrorPolicy) (k : option Z)
  : SubmissionAction :=
  {| Action.id := i; Action.name := i; Action.type := Webhook;
     Action.enabled := true; Action.order := n;
     Action.endpoint := Some "https://example.test/hook";
     Action.apiKey := None; Action.condition := cond;
     Action.onSuccess := s; Action.onError := r; Action.retryAttempts := k |}.

Definition noData : SubmissionData :=
  {| sd_formData := ∅; sd_navigationPath := [] |}.

Definition noCounts : Summary :=
  {| successful := 0; failed := 0; skipped := 0 |}.

End Scenario.
Import Scenario.

(** * Properties of the navigation state machine *)

Section Navigator.

Implicit Types (fields : list FormPage) (st : FormState) (v : value).

Lemma truthyStr_true s : truthyStr s = true ↔ s ≠ "".
Proof.
  unfold truthyStr. destruct (String.eqb_spec s ""); simpl; split; congruence.
Qed.

Lemma findFieldById_is_Some fields field :
  field ∈ fields → is_Some (findFieldById fields (id field)).
Proof.
  intros Hin. unfold findFieldById.
  destruct (list_find_elem_of (λ g, id g = id field) fields field Hin eq_refl)
    as [[i g] Hfind].
  rewrite Hfind. by eexists.
Qed.

Lemma findFieldById_first fields field rest :
  fields = field :: rest → findFieldById fields (id field) = Some field.
Proof.
  intros ->. unfold findFieldById. simpl. by rewrite decide_True.
Qed.

Lemma existingTarget_Some fields target t :
  existingTarget fields target = Some t ↔
  target = Some t ∧ t ≠ "" ∧ is_Some (findFieldById fields t).
Proof.
  unfold existingTarget. destruct target as [u|].
  - destruct (truthyStr u) eqn:Ht; simpl.
    + apply truthyStr_true in Ht. case_bool_decide as Hex; split.
      * by intros [= <-].
      * by intros ([= <-] & _ & _).
      * done.
      * intros ([= <-] & _ & Hsome). by destruct Hex.
    + split; [done|]. intros ([= <-] & Hne & _).
      apply truthyStr_true in Hne. congruence.
  - split; [done|]. by intros [? _].
Qed.

(** What [evaluateConditionalNext] returns is exactly the first existing
    target among the matching rule and [defaultNext], provided the field has
    rules at all. *)
Lemma evaluateConditionalNext_spec field v fields :
  evaluateConditionalNext field v fields =
  match conditionalNext field with
  | None => None
  | Some rules =>
      match existingTarget fields (rules !! answerKey field v) with
      | Some t => Some t
      | None => existingTarget fields (defaultNext field)
      end
  end.
Proof.
  unfold evaluateConditionalNext, existingTarget.
  destruct (conditionalNext field) as [rules|]; [|done].
  assert (Hopt : ∀ o : option string,
    (if truthyOpt o
     then match findFieldById fields (default "" o) with
          | Some _ => o | None => None end
     else None) =
    match o with
    | Some t => if truthyStr t && bool_decide (is_Some (findFieldById fields t))
                then Some t else None
    | None => None
    end).
  { intros [t|]; simpl; [|done]. destruct (truthyStr t); simpl; [|done].
    destruct (findFieldById fields t) eqn:Hf.
    - rewrite bool_decide_eq_true_2; [done | by eexists].
    - rewrite bool_decide_eq_false_2; [done | by intros [? ?]]. }
  rewrite !Hopt.
  by destruct (rules !! answerKey field v) as [t|]; simpl;
    [destruct (truthyStr t && bool_decide _)|].
Qed.

Lemma evaluateConditionalNext_truthy field v fields t :
  evaluateConditionalNext field v fields = Some t → truthyStr t = true.
Proof.
  rewrite evaluateConditionalNext_spec.
  destruct (conditionalNext field) as [rules|]; [|done].
  destruct (existingTarget fields (rules !! answerKey field v)) as [u|] eqn:Hr.
  - intros [= <-]. apply existingTarget_Some in Hr as (_ & Hne & _).
    by apply truthyStr_true.
  - intros Hd. apply existingTarget_Some in Hd as (_ & Hne & _).
    by apply truthyStr_true.
Qed.

Lemma getNextFieldId_spec field v fields :
  getNextFieldId field v fields =
  match evaluateConditionalNext field v fields with
  | Some t => Some t
  | None => linearNext fields field
  end.
Proof.
  unfold getNextFieldId, linearNext.
  destruct (evaluateConditionalNext field v fields) as [t|] eqn:He; simpl.
  - by rewrite (evaluateConditionalNext_truthy _ _ _ _ He).
  - done.
Qed.

Lemma linearNext_exists fields field n :
  linearNext fields field = Some n → is_Some (findFieldById fields n).
Proof.
  unfold linearNext. destruct (getFieldIndex fields (id field)) as [i|]; [|done].
  case_bool_decide; [|done].
  destruct (fields !! (i + 1)%nat) as [g|] eqn:Hg; [|done].
  intros [= <-]. apply findFieldById_is_Some.
  by eapply list_elem_of_lookup_2.
Qed.

Lemma getNextFieldId_exists field v fields n :
  getNextFieldId field v fields = Some n → is_Some (findFieldById fields n).
Proof.
  rewrite getNextFieldId_spec, evaluateConditionalNext_spec.
  destruct (conditionalNext field) as [rules|].
  - destruct (existingTarget fields (rules !! answerKey field v)) as [t|] eqn:Hr.
    + intros [= <-]. by apply existingTarget_Some in Hr as (_ & _ & ?).
    + destruct (existingTarget fields (defaultNext field)) as [d|] eqn:Hd.
      * intros [= <-]. by apply existingTarget_Some in Hd as (_ & _ & ?).
      * apply linearNext_exists.
  - apply linearNext_exists.
Qed.

(** C1, as amended. For a field that carries conditional rules, advancing
    resolves the next field in the precedence: the rule for the stringified
    answer, then [defaultNext], then the next field in linear order; a rule or
    default target that is empty or names no existing field is passed over and
    resolution falls through to the next rule. A field without conditional
    rules advances in linear order, whatever its [defaultNext]. *)
Theorem getNextFieldId_precedence field v fields :
  (∀ rules, conditionalNext field = Some rules →
     (∀ t, rules !! answerKey field v = Some t → t ≠ "" →
           is_Some (findFieldById fields t) →
           getNextFieldId field v fields = Some t) ∧
     (existingTarget fields (rules !! answerKey field v) = None →
      ∀ d, defaultNext field = Some d → d ≠ "" →
           is_Some (findFieldById fields d) →
           getNextFieldId field v fields = Some d) ∧
     (existingTarget fields (rules !! answerKey field v) = None →
      existingTarget fields (defaultNext field) = None →
      getNextFieldId field v fields = linearNext fields field) ∧
     getNextFieldId field v fields = precedenceNext field v fields) ∧
  (conditionalNext field = None →
     getNextFieldId field v fields = linearNext fields field).
Proof.
  split.
  - intros rules Hrules.
    assert (Heq : getNextFieldId field v fields = precedenceNext field v fields).
    { rewrite getNextFieldId_spec, evaluateConditionalNext_spec.
      unfold precedenceNext. rewrite Hrules. simpl.
      destruct (existingTarget fields (rules !! answerKey field v)); [done|].
      by destruct (existingTarget fields (defaultNext field)). }
    rewrite Heq. unfold precedenceNext. rewrite Hrules. simpl.
    repeat split.
    + intros t Ht Hne Hex.
      assert (existingTarget fields (rules !! answerKey field v) = Some t) as ->
        by (by apply existingTarget_Some).
      done.
    + intros -> d Hd Hne Hex.
      assert (existingTarget fields (defaultNext field) = Some d) as ->
        by (by apply existingTarget_Some).
      done.
    + by intros -> ->.
  - intros Hnone.
    by rewrite getNextFieldId_spec, evaluateConditionalNext_spec, Hnone.
Qed.

Lemma handleNext_rejected fields overrideValue st field :
  currentField fields st = Some field →
  validateCurrentField fields overrideValue st = false →
  handleNext fields overrideValue st =
  {| currentFieldId := currentFieldId st;
     navigationHistory := navigationHistory st;
     formData := formData st;
     error := true |}.
Proof. intros Hcur Hval. unfold handleNext. by rewrite Hcur, Hval. Qed.

Lemma isValid_emptyOrAbsent v : emptyOrAbsent v = true → isValid v = false.
Proof.
  destruct v as [| |s|n|l|text]; simpl; try done.
  - intros Hs. unfold truthyStr. by rewrite Hs.
  - intros Hl. apply bool_decide_eq_true_1 in Hl as ->. done.
Qed.

Lemma resetIfInvalid_valid fields st :
  is_Some (currentField fields st) → resetIfInvalid fields st = st.
Proof. intros [f Hf]. unfold resetIfInvalid. by rewrite Hf. Qed.

Lemma inherited_not_empty key member :
  inherited key = Some member → emptyOrAbsent member = false.
Proof.
  unfold inherited. intros Hin. apply elem_of_list_to_map_2 in Hin.
  unfold objectPrototype in Hin.
  repeat (apply elem_of_cons in Hin as [[= _ ->]|Hin]; [done|]).
  by apply elem_of_nil in Hin.
Qed.

(** Under an id that names no member of [Object.prototype], [formData[id]]
    is the stored answer, or [undefined]. *)
Lemma readAnswer_own (data : gmap string value) fieldId :
  inherited fieldId = None →
  readAnswer data fieldId = default VUndefined (data !! fieldId).
Proof. intros Hown. unfold readAnswer. rewrite Hown. by destruct (data !! _). Qed.

(** [formData[id]] reads as empty or absent exactly when an empty answer is
    stored, or nothing is stored and the id names no inherited member. *)
Lemma emptyOrAbsent_readAnswer (data : gmap string value) fieldId :
  emptyOrAbsent (readAnswer data fieldId) = true ↔
  (data !! fieldId = None ∧ inherited fieldId = None) ∨
  (∃ w, data !! fieldId = Some w ∧ emptyOrAbsent w = true).
Proof.
  unfold readAnswer. destruct (data !! fieldId) as [w|].
  - split; [intros Hw; right; by exists w|].
    by intros [[? _]|(? & [= <-] & ?)].
  - destruct (inherited fieldId) as [m|] eqn:Hm; simpl.
    + rewrite (inherited_not_empty _ _ Hm).
      split; [done|]. by intros [[_ ?]|(? & ? & _)].
    + split; [by left|done].
Qed.

(** Required-field validation in [handleNext]. While the current field is
    required and the value [handleNext] works with (the override when one is
    passed, else what [formData[id]] reads) is [undefined], the empty string
    or an empty array, [handleNext] keeps [currentFieldId] and the navigation
    history and raises the error flag; storing an answer, empty or not, never
    validates: it touches neither the current field, the history nor the
    error flag. *)
Theorem advance_blocked_on_required_empty fields overrideValue st field :
  currentField fields st = Some field →
  required field = true →
  emptyOrAbsent (effectiveValue field overrideValue st) = true →
  (let st' := handleNext fields overrideValue st in
   currentFieldId st' = currentFieldId st ∧
   navigationHistory st' = navigationHistory st ∧
   formData st' = formData st ∧
   error st' = true ∧
   applyOp fields (Advance overrideValue) st = st') ∧
  (∀ fieldId w,
     let st' := handleInputChange fieldId w st in
     currentFieldId st' = currentFieldId st ∧
     navigationHistory st' = navigationHistory st ∧
     error st' = error st ∧
     readAnswer (formData st') fieldId = w).
Proof.
  intros Hcur Hreq Hempty.
  assert (Hval : validateCurrentField fields overrideValue st = false).
  { unfold validateCurrentField. rewrite Hcur, Hreq.
    by apply isValid_emptyOrAbsent. }
  split.
  - simpl. rewrite (handleNext_rejected _ _ _ _ Hcur Hval). simpl.
    repeat split. unfold applyOp.
    rewrite (handleNext_rejected _ _ _ _ Hcur Hval).
    apply resetIfInvalid_valid. unfold currentField in *. simpl.
    rewrite Hcur. by eexists.
  - intros fieldId w. simpl. repeat split.
    unfold readAnswer. by rewrite lookup_insert_eq.
Qed.

Lemma wellFormed_initial fields : wellFormed fields (initialState fields).
Proof. by split. Qed.

Lemma wellFormed_reset fields st :
  wellFormed fields st → wellFormed fields (resetIfInvalid fields st).
Proof.
  intros Hwf. unfold resetIfInvalid.
  destruct (currentField fields st); [done|].
  destruct fields as [|field rest]; [done|]. by split.
Qed.

Lemma handleNext_cases fields overrideValue st :
  let st' := handleNext fields overrideValue st in
  match advanceTarget fields overrideValue st with
  | Some next =>
      navigationHistory st' = navigationHistory st ++ [next] ∧
      currentFieldId st' = next ∧ error st' = false
  | None =>
      navigationHistory st' = navigationHistory st ∧
      currentFieldId st' = currentFieldId st
  end ∧ formData st' = formData st.
Proof.
  simpl. unfold handleNext, advanceTarget.
  destruct (currentField fields st) as [field|]; [|done].
  destruct (validateCurrentField fields overrideValue st); simpl; [|done].
  destruct (getNextFieldId field (effectiveValue field overrideValue st) fields)
    as [n|] eqn:Hn; simpl; [|done].
  pose proof (getNextFieldId_exists _ _ _ _ Hn) as Hex.
  destruct (truthyStr n) eqn:Ht; simpl.
  - by rewrite bool_decide_eq_true_2.
  - done.
Qed.

Lemma wellFormed_handleNext fields overrideValue st :
  wellFormed fields st → wellFormed fields (handleNext fields overrideValue st).
Proof.
  intros [Hhead Hlast].
  pose proof (handleNext_cases fields overrideValue st) as [Hcase _].
  simpl in Hcase. unfold wellFormed.
  destruct (advanceTarget fields overrideValue st) as [next|].
  - destruct Hcase as (-> & -> & _). split.
    + destruct (navigationHistory st); [done|]. done.
    + apply last_snoc.
  - destruct Hcase as [-> ->]. done.
Qed.

Lemma handlePrevious_single st only :
  navigationHistory st = [only] →
  navigationHistory (handlePrevious st) = [only] ∧
  currentFieldId (handlePrevious st) = currentFieldId st ∧
  formData (handlePrevious st) = formData st.
Proof. intros Hh. unfold handlePrevious. rewrite Hh. by simpl. Qed.

Lemma handlePrevious_pop st older previous current :
  navigationHistory st = older ++ [previous; current] →
  navigationHistory (handlePrevious st) = older ++ [previous] ∧
  currentFieldId (handlePrevious st) = previous ∧
  formData (handlePrevious st) = formData st.
Proof.
  intros Hh. unfold handlePrevious. rewrite Hh.
  assert (Hlen : length (older ++ [previous; current]) = S (S (length older)))
    by (rewrite length_app; simpl; lia).
  assert (Htake : take (length (older ++ [previous; current]) - 1)
                    (older ++ [previous; current]) = older ++ [previous]).
  { rewrite Hlen.
    replace (S (S (length older)) - 1)%nat with (length (older ++ [previous]))
      by (rewrite length_app; simpl; lia).
    change (older ++ [previous; current]) with (older ++ [previous] ++ [current]).
    rewrite app_assoc. by rewrite take_app_length. }
  rewrite bool_decide_eq_true_2 by lia. cbv zeta. rewrite Htake. simpl.
  repeat split.
  rewrite length_app. simpl.
  replace (length older + 1 - 1)%nat with (length older + 0)%nat by lia.
  by rewrite lookup_app_r, Nat.add_0_r, Nat.sub_diag by lia.
Qed.

(** A history with at least two entries splits off its last two. *)
Lemma two_last (l : list string) :
  (1 < length l)%nat → ∃ older previous current, l = older ++ [previous; current].
Proof.
  intros Hlen.
  destruct l as [|x l] using rev_ind; [simpl in Hlen; lia|].
  destruct l as [|y l _] using rev_ind.
  - simpl in Hlen. lia.
  - exists l, y, x. by rewrite <- app_assoc.
Qed.

Lemma wellFormed_handlePrevious fields st :
  wellFormed fields st → wellFormed fields (handlePrevious st).
Proof.
  intros [Hhead Hlast]. unfold wellFormed.
  destruct (decide (1 < length (navigationHistory st))%nat) as [Hlen|Hlen].
  - destruct (two_last _ Hlen) as (older & previous & current & Hh).
    destruct (handlePrevious_pop _ _ _ _ Hh) as (-> & -> & _). split.
    + rewrite Hh in Hhead. by destruct older.
    + apply last_snoc.
  - unfold handlePrevious. rewrite bool_decide_eq_false_2 by done. done.
Qed.

Lemma wellFormed_applyOp fields op st :
  wellFormed fields st → wellFormed fields (applyOp fields op st).
Proof.
  intros Hwf. unfold applyOp. apply wellFormed_reset.
  destruct op; simpl.
  - by apply wellFormed_handleNext.
  - by apply wellFormed_handlePrevious.
  - done.
  - done.
Qed.

Lemma wellFormed_run fields ops : wellFormed fields (run fields ops).
Proof.
  unfold run.
  assert (Hstart : wellFormed fields (resetIfInvalid fields (initialState fields)))
    by apply wellFormed_reset, wellFormed_initial.
  revert Hstart. generalize (resetIfInvalid fields (initialState fields)).
  induction ops as [|op ops IH]; intros st Hwf; simpl; [done|].
  apply IH. by apply wellFormed_applyOp.
Qed.

(** C3. After every sequence of operations the navigation history is
    non-empty, starts with the first field's id and ends with the current
    field. With exactly one entry [handlePrevious] leaves history, current
    field and answers as they are; with more it drops the last entry and makes
    the new last entry current. When [handleNext] moves, it appends the
    resolved field id, which becomes current; when it does not move, the
    history is unchanged. *)
Theorem navigationHistory_invariant fields ops :
  let st := run fields ops in
  (navigationHistory st ≠ [] ∧
   match fields with
   | first :: _ => head (navigationHistory st) = Some (id first)
   | [] => head (navigationHistory st) = Some ""
   end ∧
   last (navigationHistory st) = Some (currentFieldId st)) ∧
  match navigationHistory st with
  | [only] =>
      navigationHistory (handlePrevious st) = [only] ∧
      currentFieldId (handlePrevious st) = currentFieldId st ∧
      formData (handlePrevious st) = formData st
  | _ =>
      ∃ older previous current,
        navigationHistory st = older ++ [previous; current] ∧
        navigationHistory (handlePrevious st) = older ++ [previous] ∧
        currentFieldId (handlePrevious st) = previous ∧
        formData (handlePrevious st) = formData st
  end ∧
  (∀ overrideValue,
     let st' := handleNext fields overrideValue st in
     match advanceTarget fields overrideValue st with
     | Some next =>
         navigationHistory st' = navigationHistory st ++ [next] ∧
         currentFieldId st' = next ∧
         is_Some (findFieldById fields next)
     | None =>
         navigationHistory st' = navigationHistory st ∧
         currentFieldId st' = currentFieldId st
     end).
Proof.
  simpl. destruct (wellFormed_run fields ops) as [Hhead Hlast].
  set (st := run fields ops) in *.
  split; [|split].
  - repeat split.
    + intros Hnil. by rewrite Hnil in Hhead.
    + destruct fields; exact Hhead.
    + exact Hlast.
  - destruct (navigationHistory st) as [|x [|y l]] eqn:Hh.
    + done.
    + by apply handlePrevious_single.
    + destruct (two_last (x :: y :: l)) as (older & previous & current & Heq);
        [simpl; lia|].
      exists older, previous, current. split; [done|].
      apply (handlePrevious_pop st older previous current). by rewrite Hh.
  - intros overrideValue.
    pose proof (handleNext_cases fields overrideValue st) as [Hcase _].
    simpl in Hcase.
    destruct (advanceTarget fields overrideValue st) as [next|] eqn:Hadv.
    + destruct Hcase as (? & ? & ?). repeat split; try done.
      unfold advanceTarget in Hadv.
      destruct (currentField fields st); [|done].
      destruct (validateCurrentField fields overrideValue st); [|done].
      by apply existingTarget_Some in Hadv as (_ & _ & ?).
    + done.
Qed.

End Navigator.

(** * Properties of the submission service *)

Section Orchestrator.
Context `{H : Host}.

Implicit Types (a b : SubmissionAction) (d : SubmissionData) (e : Env H).

(** *** The stable sort *)

Lemma insertByOrder_Permutation a l : insertByOrder a l ≡ₚ a :: l.
Proof.
  induction l as [|b l IH]; simpl; [done|].
  destruct (Action.order a <=? Action.order b)%Z; [done|].
  rewrite IH. apply Permutation_swap.
Qed.

Lemma sortByOrder_Permutation l : sortByOrder l ≡ₚ l.
Proof.
  induction l as [|a l IH]; simpl; [done|].
  by rewrite insertByOrder_Permutation, IH.
Qed.

Lemma insertByOrder_sorted a l :
  StronglySorted byOrder l → StronglySorted byOrder (insertByOrder a l).
Proof.
  induction 1 as [|b l Hs IH Hall]; simpl.
  - by repeat constructor.
  - destruct (Z.leb_spec (Action.order a) (Action.order b)) as [Hle|Hgt].
    + constructor; [by constructor|].
      constructor; [done|].
      eapply Forall_impl; [exact Hall|]. unfold byOrder. intros c Hc. lia.
    + constructor; [done|].
      rewrite insertByOrder_Permutation. constructor; [|done].
      unfold byOrder. lia.
Qed.

Lemma sortByOrder_sorted l : StronglySorted byOrder (sortByOrder l).
Proof.
  induction l as [|a l IH]; simpl; [constructor|].
  by apply insertByOrder_sorted.
Qed.

(** Actions of equal order keep their declaration order. *)
Lemma insertByOrder_stable k a l :
  filter (λ b, Action.order b = k) (insertByOrder a l) =
  filter (λ b, Action.order b = k) (a :: l).
Proof.
  induction l as [|b l IH]; simpl; [done|].
  destruct (Z.leb_spec (Action.order a) (Action.order b)) as [Hle|Hgt]; [done|].
  rewrite (filter_cons _ b (insertByOrder a l)), IH.
  rewrite !filter_cons.
  destruct (decide (Action.order b = k)), (decide (Action.order a = k));
    try done; lia.
Qed.

Lemma sortByOrder_stable k l :
  filter (λ b, Action.order b = k) (sortByOrder l) =
  filter (λ b, Action.order b = k) l.
Proof.
  induction l as [|a l IH]; simpl; [done|].
  rewrite insertByOrder_stable, !filter_cons, IH. done.
Qed.

Lemma StronglySorted_sublist (l1 l2 : list SubmissionAction) :
  l1 `sublist_of` l2 → StronglySorted byOrder l2 → StronglySorted byOrder l1.
Proof.
  induction 1 as [|x l1 l2 Hsub IH|x l1 l2 Hsub IH]; intros Hs.
  - constructor.
  - apply StronglySorted_inv in Hs as [Hs Hall].
    constructor; [by apply IH|].
    apply Forall_forall. intros y Hy.
    eapply Forall_forall; [exact Hall|]. by eapply elem_of_sublist.
  - apply StronglySorted_inv in Hs as [Hs _]. by apply IH.
Qed.

(** *** Condition evaluation *)

Lemma evaluateCondition_blank c answers e :
  trimIsEmpty c = true →
  evaluateCondition (Some c) answers e = (true, answers, e).
Proof.
  intros Hblank. unfold evaluateCondition. rewrite Hblank.
  by rewrite orb_true_r.
Qed.

Lemma evaluateCondition_malformed c answers e :
  trimIsEmpty c = false → parses c = false →
  evaluateCondition (Some c) answers e = (true, answers, warnCondition c e).
Proof.
  intros Hblank Hparse. unfold evaluateCondition. rewrite Hblank, Hparse.
  destruct c; [done|]. done.
Qed.

Lemma evaluateCondition_run c answers e :
  trimIsEmpty c = false → parses c = true →
  evaluateCondition (Some c) answers e =
  let '(r, answers', w) := call c answers (world e) in
  match r with
  | Returned truthy => (truthy, answers', {| world := w; trace := trace e |})
  | Threw =>
      (true, answers', warnCondition c {| world := w; trace := trace e |})
  end.
Proof.
  intros Hblank Hparse. unfold evaluateCondition. rewrite Hblank, Hparse.
  destruct c; [done|]. done.
Qed.

Lemma filterByCondition_sublist l answers e :
  (filterByCondition l answers e).1.1 `sublist_of` l.
Proof.
  revert answers e. induction l as [|a l IH]; intros answers e; simpl; [done|].
  destruct (evaluateCondition (Action.condition a) answers e)
    as [[keep answers1] e1].
  specialize (IH answers1 e1).
  destruct (filterByCondition l answers1 e1) as [[rest answers2] e2].
  simpl in *. destruct keep; by constructor.
Qed.

(** *** Dispatch and retry *)

Lemma executeAction_trace a d e :
  trace (executeAction a d e).2 = trace e ++ [EvDispatch (Action.id a)].
Proof.
  unfold executeAction, bind, emit, executeWebhookAction, executeEmailAction,
    executeAirtableAction, executeGoogleSheetsAction, executeSlackAction,
    executeCustomAction, executeWebhookAction, bind, request, ret, throw.
  destruct (Action.type a); simpl;
    repeat match goal with
    | |- context [if ?c then _ else _] => destruct c; simpl
    | |- context [fetch ?x ?y ?z] => destruct (fetch x y z) as [[?|?] ?]; simpl
    end; done.
Qed.

Lemma executeActionWithRetry_unfold a d attempt e :
  executeActionWithRetry a d attempt e =
  match executeAction a d e with
  | (inr p, e1) => (inr p, e1)
  | (inl msg, e1) =>
      if (attempt <? maxAttempts a)%Z
         && bool_decide (Action.onError a = Some ErrorRetry)
      then executeActionWithRetry a d (attempt + 1) (delayed attempt e1)
      else (inl msg, e1)
  end.
Proof.
  unfold executeActionWithRetry.
  destruct (Z.to_nat (maxAttempts a - attempt)) as [|fuel] eqn:Hfuel; simpl;
    unfold catch; destruct (executeAction a d e) as [[msg|p] e1]; try done.
  - destruct (Z.ltb_spec attempt (maxAttempts a)); [lia|]. done.
  - destruct (Z.ltb_spec attempt (maxAttempts a)); simpl; [|done].
    case_bool_decide; [|done].
    unfold bind, emit, delayed. simpl.
    by replace (Z.to_nat (maxAttempts a - (attempt + 1))) with fuel by lia.
Qed.

Lemma retrySchedule_dispatches actionId attempt more :
  dispatches actionId (retrySchedule actionId attempt more) = S more.
Proof.
  unfold dispatches. revert attempt.
  induction more as [|more IH]; intros attempt; simpl.
  - rewrite filter_cons, decide_True by done. done.
  - rewrite filter_cons, decide_True by done.
    rewrite filter_cons, decide_False by done.
    simpl. f_equal. apply IH.
Qed.

Lemma retrySchedule_delays actionId attempt more :
  delaysOf (retrySchedule actionId attempt more) =
  (λ n : nat, (2 ^ (attempt + Z.of_nat n) * 1000)%Z) <$> seq 0 more.
Proof.
  unfold delaysOf. revert attempt.
  induction more as [|more IH]; intros attempt; [done|].
  change (retrySchedule actionId attempt (S more)) with
    (EvDispatch actionId :: EvDelay (2 ^ attempt * 1000)%Z
       :: retrySchedule actionId (attempt + 1) more).
  change (seq 0 (S more)) with (0%nat :: seq 1 more).
  rewrite <- fmap_S_seq, fmap_cons, <- list_fmap_compose.
  cbn [omap list_omap]. rewrite IH, Z.add_0_r. f_equal.
  apply list_fmap_ext. intros _ n _. simpl. do 2 f_equal. lia.
Qed.

Lemma retrySchedule_only actionId attempt more i :
  EvDispatch i ∈ retrySchedule actionId attempt more → i = actionId.
Proof.
  revert attempt. induction more as [|more IH]; intros attempt; simpl.
  - rewrite list_elem_of_singleton. by intros [= ->].
  - rewrite !elem_of_cons. intros [[= ->]|[?|?]]; [done|done|by eapply IH].
Qed.

(** The attempts of one action: at most as many as its fuel, evenly spaced by
    the back-off; a retrying action that fails has used them all. *)
Lemma executeActionWithRetry_schedule (n : nat) a d attempt e :
  Z.to_nat (maxAttempts a - attempt) = n →
  ∃ more : nat,
    (more ≤ n)%nat ∧
    trace (executeActionWithRetry a d attempt e).2 =
      trace e ++ retrySchedule (Action.id a) attempt more ∧
    (Action.onError a ≠ Some ErrorRetry → more = 0%nat) ∧
    (∀ msg, (executeActionWithRetry a d attempt e).1 = inl msg →
            Action.onError a = Some ErrorRetry → more = n).
Proof.
  revert attempt e. induction n as [|n IH]; intros attempt e Hn;
    rewrite executeActionWithRetry_unfold;
    pose proof (executeAction_trace a d e) as Htr;
    destruct (executeAction a d e) as [[msg|p] e1]; simpl in Htr.
  - destruct (Z.ltb_spec attempt (maxAttempts a)); [lia|]. simpl.
    exists 0%nat. by rewrite Htr.
  - exists 0%nat. simpl. rewrite Htr. repeat split; [lia|done..].
  - destruct (Z.ltb_spec attempt (maxAttempts a)); [|lia]. simpl.
    case_bool_decide as Hretry.
    + destruct (IH (attempt + 1)%Z (delayed attempt e1)) as
        (more & Hle & Htrace & Hno & Hall); [lia|].
      exists (S more). repeat split.
      * lia.
      * rewrite Htrace. simpl. rewrite Htr, <- !app_assoc. done.
      * intros Hne. done.
      * intros msg' Hfail _. f_equal. by eapply Hall.
    + exists 0%nat. simpl. rewrite Htr. repeat split; [lia|done..].
  - exists 0%nat. simpl. rewrite Htr. repeat split; [lia|done..].
Qed.

(** *** The sequential loop *)

Lemma sequentialLoop_single a d results summary e :
  sequentialLoop [a] d results summary e =
  match executeActionWithRetry a d 1 e with
  | (inr p, e1) =>
      (results ++ [succeeded a p],
       {| successful := S (successful summary); failed := failed summary;
          skipped := skipped summary |}, e1)
  | (inl msg, e1) =>
      (results ++ [errored a msg],
       {| successful := successful summary; failed := S (failed summary);
          skipped := skipped summary |}, e1)
  end.
Proof.
  simpl. destruct (executeActionWithRetry a d 1 e) as [[msg|p] e1];
    by case_bool_decide.
Qed.

Lemma sequentialLoop_stop a post d results summary e :
  stopsAt a d e = true →
  sequentialLoop (a :: post) d results summary e =
  sequentialLoop [a] d results summary e.
Proof.
  unfold stopsAt. simpl.
  destruct (executeActionWithRetry a d 1 e) as [[msg|p] e1];
    by intros ->.
Qed.

Lemma sequentialLoop_app pre post d results summary e :
  runsThrough pre d e = true →
  sequentialLoop (pre ++ post) d results summary e =
  let '(results1, summary1, e1) := sequentialLoop pre d results summary e in
  sequentialLoop post d results1 summary1 e1.
Proof.
  revert results summary e.
  induction pre as [|a pre IH]; intros results summary e Hrun; [done|].
  simpl in Hrun. apply andb_prop in Hrun as [Hstop Hrun].
  apply negb_true_iff in Hstop. unfold stopsAt in Hstop. simpl.
  destruct (executeActionWithRetry a d 1 e) as [[msg|p] e1]; simpl in *;
    rewrite Hstop; by apply IH.
Qed.

(** The loop appends one result per action it ran, counts it on one side of
    the summary, never touches [skipped], and dispatches nothing but actions
    of its list. *)
Lemma sequentialLoop_accounts l d results summary e :
  let '(results', summary', e') := sequentialLoop l d results summary e in
  ∃ new events,
    results' = results ++ new ∧
    (length new ≤ length l)%nat ∧
    successful summary' =
      (successful summary + length (List.filter Result.success new))%nat ∧
    failed summary' =
      (failed summary
       + length (List.filter (λ r, negb (Result.success r)) new))%nat ∧
    skipped summary' = skipped summary ∧
    trace e' = trace e ++ events ∧
    ∀ i, EvDispatch i ∈ events → i ∈ Action.id <$> l.
Proof.
  revert results summary e.
  induction l as [|a l IH]; intros results summary e.
  - simpl. exists [], []. rewrite !app_nil_r. simpl.
    repeat split; try lia. intros i Hi. by apply elem_of_nil in Hi.
  - cbn [sequentialLoop].
    destruct (executeActionWithRetry_schedule
                (Z.to_nat (maxAttempts a - 1)) a d 1 e eq_refl)
      as (more & _ & Htrace & _).
    pose proof (λ i, retrySchedule_only (Action.id a) 1 more i) as Hmine.
    destruct (executeActionWithRetry a d 1 e) as [[msg|p] e1]; simpl in Htrace.
    + case_bool_decide.
      * exists [errored a msg], (retrySchedule (Action.id a) 1 more). simpl.
        repeat split; try lia; [done|].
        intros i Hi. rewrite (Hmine i Hi). apply elem_of_cons. by left.
      * specialize (IH (results ++ [errored a msg])
          {| successful := successful summary; failed := S (failed summary);
             skipped := skipped summary |} e1).
        destruct (sequentialLoop l d _ _ e1) as [[results' summary'] e'].
        destruct IH as (new & events & -> & Hlen & Hs & Hf & Hk & Ht & Hev).
        exists (errored a msg :: new), (retrySchedule (Action.id a) 1 more ++ events).
        simpl in *. rewrite <- app_assoc. repeat split; try lia; try done.
        -- rewrite Ht, Htrace. by rewrite <- app_assoc.
        -- intros i [Hi|Hi]%elem_of_app; apply elem_of_cons;
             [left; by apply Hmine | right; by apply Hev].
    + case_bool_decide.
      * exists [succeeded a p], (retrySchedule (Action.id a) 1 more). simpl.
        repeat split; try lia; [done|].
        intros i Hi. rewrite (Hmine i Hi). apply elem_of_cons. by left.
      * specialize (IH (results ++ [succeeded a p])
          {| successful := S (successful summary); failed := failed summary;
             skipped := skipped summary |} e1).
        destruct (sequentialLoop l d _ _ e1) as [[results' summary'] e'].
        destruct IH as (new & events & -> & Hlen & Hs & Hf & Hk & Ht & Hev).
        exists (succeeded a p :: new), (retrySchedule (Action.id a) 1 more ++ events).
        simpl in *. rewrite <- app_assoc. repeat split; try lia; try done.
        -- rewrite Ht, Htrace. by rewrite <- app_assoc.
        -- intros i [Hi|Hi]%elem_of_app; apply elem_of_cons;
             [left; by apply Hmine | right; by apply Hev].
Qed.

Lemma stopsAt_true a d e :
  stopsAt a d e = true ↔
  (∃ p, (executeActionWithRetry a d 1 e).1 = inr p ∧
        Action.onSuccess a = Some SuccessStop) ∨
  (∃ msg, (executeActionWithRetry a d 1 e).1 = inl msg ∧
          Action.onError a = Some ErrorStop).
Proof.
  unfold stopsAt.
  destruct (executeActionWithRetry a d 1 e) as [[msg|p] e1]; simpl;
    rewrite bool_decide_eq_true; split.
  - intros Hstop. right. by exists msg.
  - intros [(p & [=] & _)|(msg' & _ & Hstop)]. done.
  - intros Hstop. left. by exists p.
  - intros [(p' & _ & Hstop)|(msg & [=] & _)]. done.
Qed.

(** C6. In the sequential loop, once the actions before [a] have run without
    stopping it, if [a] resolves and has [onSuccess = stop], or rejects (its
    retries, if any, used up) and has [onError = stop], the loop ends with
    [a]: the run is the run of the list cut after [a], so no later action is
    dispatched and none adds a result or a count of any kind. *)
Theorem stop_ends_sequential_loop pre a post d results summary e :
  runsThrough pre d e = true →
  ((∃ p, (executeActionWithRetry a d 1
            (sequentialLoop pre d results summary e).2).1 = inr p ∧
         Action.onSuccess a = Some SuccessStop) ∨
   (∃ msg, (executeActionWithRetry a d 1
              (sequentialLoop pre d results summary e).2).1 = inl msg ∧
           Action.onError a = Some ErrorStop)) →
  sequentialLoop (pre ++ a :: post) d results summary e =
    sequentialLoop (pre ++ [a]) d results summary e ∧
  let '(results1, summary1, e1) := sequentialLoop pre d results summary e in
  let '(results2, summary2, e2) :=
    sequentialLoop (pre ++ a :: post) d results summary e in
  e2 = (executeActionWithRetry a d 1 e1).2 ∧
  length results2 = S (length results1) ∧
  (successful summary2 + failed summary2 =
   S (successful summary1 + failed summary1))%nat ∧
  skipped summary2 = skipped summary1 ∧
  ∃ events,
    trace e2 = trace e ++ events ∧
    ∀ b, b ∈ post → Action.id b ∉ Action.id <$> (pre ++ [a]) →
         EvDispatch (Action.id b) ∉ events.
Proof.
  intros Hrun Hstop. apply stopsAt_true in Hstop.
  pose proof (sequentialLoop_app pre (a :: post) d results summary e Hrun) as Hfull.
  pose proof (sequentialLoop_app pre [a] d results summary e Hrun) as Hcut.
  pose proof (sequentialLoop_accounts (pre ++ [a]) d results summary e) as Hacc.
  destruct (sequentialLoop pre d results summary e) as [[results1 summary1] e1].
  simpl in Hstop.
  rewrite (sequentialLoop_stop a post d results1 summary1 e1 Hstop) in Hfull.
  assert (Heq : sequentialLoop (pre ++ a :: post) d results summary e =
                sequentialLoop (pre ++ [a]) d results summary e) by congruence.
  split; [exact Heq|]. rewrite Heq, Hcut. rewrite Hcut in Hacc.
  rewrite sequentialLoop_single in *.
  destruct (executeActionWithRetry a d 1 e1) as [[msg|p] e2]; simpl;
    destruct Hacc as (new & events & _ & _ & _ & _ & _ & Htrace & Hev);
    (split_and!; [done | by rewrite length_app, Nat.add_comm | lia | done |
       exists events; split; [done|]; intros b _ Hfresh Hin; by apply Hfresh, Hev]).
Qed.

(** Two failed attempts and a third that resolves, under three allowed
    attempts. *)
Lemma retry_third_attempt a d e m1 e1 m2 e2 p e3 :
  maxAttempts a = 3%Z → Action.onError a = Some ErrorRetry →
  executeAction a d e = (inl m1, e1) →
  executeAction a d (delayed 1 e1) = (inl m2, e2) →
  executeAction a d (delayed 2 e2) = (inr p, e3) →
  executeActionWithRetry a d 1 e = (inr p, e3) ∧
  trace e3 = trace e ++
    [EvDispatch (Action.id a); EvDelay 2000; EvDispatch (Action.id a);
     EvDelay 4000; EvDispatch (Action.id a)].
Proof.
  intros Hmax Hretry H1 H2 H3.
  pose proof (executeAction_trace a d e) as T1.
  pose proof (executeAction_trace a d (delayed 1 e1)) as T2.
  pose proof (executeAction_trace a d (delayed 2 e2)) as T3.
  rewrite H1 in T1. rewrite H2 in T2. rewrite H3 in T3. simpl in T1, T2, T3.
  split.
  - rewrite executeActionWithRetry_unfold, H1, Hmax, Hretry. simpl.
    change (1 + 1)%Z with 2%Z.
    rewrite executeActionWithRetry_unfold, H2, Hmax, Hretry. simpl.
    change (2 + 1)%Z with 3%Z.
    by rewrite executeActionWithRetry_unfold, H3.
  - rewrite T3, T2, T1. by rewrite <- !app_assoc.
Qed.

(** C7. An action with [retryAttempts = k >= 1] is dispatched at most [k]
    times; attempt [n] is followed, before attempt [n + 1], by a delay of
    [2 ^ n] seconds; without [onError = retry] there is a single attempt, and
    a retrying action that fails has made all [k]. A final failure is
    recorded by the sequential loop as one failed result. With [k = 3] and a
    dispatcher that fails twice and then succeeds, the action resolves after
    two delays (2 s, 4 s), and the run reports success with no failure. *)
Theorem retry_bounded_with_backoff a d e k :
  Action.retryAttempts a = Some k → (1 ≤ k)%Z →
  let '(r, e') := executeActionWithRetry a d 1 e in
  (∃ more : nat,
     (Z.of_nat (S more) ≤ k)%Z ∧
     trace e' = trace e ++ retrySchedule (Action.id a) 1 more ∧
     dispatches (Action.id a) (retrySchedule (Action.id a) 1 more) = S more ∧
     delaysOf (retrySchedule (Action.id a) 1 more) =
       (λ n : nat, (2 ^ Z.of_nat n * 1000)%Z) <$> seq 1 more ∧
     (Action.onError a ≠ Some ErrorRetry → more = 0%nat) ∧
     (∀ msg, r = inl msg → Action.onError a = Some ErrorRetry →
             Z.of_nat (S more) = k)) ∧
  (∀ msg results summary, r = inl msg →
     sequentialLoop [a] d results summary e =
     (results ++ [errored a msg],
      {| successful := successful summary; failed := S (failed summary);
         skipped := skipped summary |}, e')) ∧
  (k = 3%Z → Action.onError a = Some ErrorRetry →
   ∀ m1 e1 m2 e2 p e3,
     executeAction a d e = (inl m1, e1) →
     executeAction a d (delayed 1 e1) = (inl m2, e2) →
     executeAction a d (delayed 2 e2) = (inr p, e3) →
     r = inr p ∧ e' = e3 ∧
     trace e' = trace e ++
       [EvDispatch (Action.id a); EvDelay 2000; EvDispatch (Action.id a);
        EvDelay 4000; EvDispatch (Action.id a)] ∧
     ∀ results summary,
       sequentialLoop [a] d results summary e =
       (results ++ [succeeded a p],
        {| successful := S (successful summary); failed := failed summary;
           skipped := skipped summary |}, e')).
Proof.
  intros Hk Hpos.
  assert (Hmax : maxAttempts a = k).
  { unfold maxAttempts. rewrite Hk. destruct (Z.eqb_spec k 0); [lia|done]. }
  pose proof (executeActionWithRetry_schedule
                (Z.to_nat (maxAttempts a - 1)) a d 1 e eq_refl)
    as (more & Hle & Htrace & Hno & Hall).
  pose proof (λ results summary, sequentialLoop_single a d results summary e)
    as Hloop.
  pose proof (retry_third_attempt a d e) as Hthird.
  destruct (executeActionWithRetry a d 1 e) as [r e'] eqn:Hrun.
  simpl in Htrace, Hall. split_and!.
  - exists more. split_and!; try done.
    + lia.
    + apply retrySchedule_dispatches.
    + rewrite retrySchedule_delays, <- fmap_S_seq, <- list_fmap_compose.
      apply list_fmap_ext. intros _ n _. simpl. do 2 f_equal. lia.
    + intros msg Hr Hretry. rewrite (Hall msg Hr Hretry). lia.
  - intros msg results summary ->. by rewrite Hloop.
  - intros -> Hretry m1 e1 m2 e2 p e3 H1 H2 H3.
    destruct (Hthird m1 e1 m2 e2 p e3 Hmax Hretry H1 H2 H3) as [[= -> ->] Htr].
    split_and!; [done..|]. intros results summary. apply Hloop.
Qed.

(** *** The parallel branch *)

(** Every action handed to the parallel branch is dispatched exactly once, in
    array order, whatever its policies; nothing is retried or delayed. *)
Lemma parallelResults_once l d e :
  let '(results, e') := parallelResults l d e in
  Result.action <$> results = Action.name <$> l ∧
  trace e' = trace e ++ (EvDispatch ∘ Action.id <$> l).
Proof.
  revert e. induction l as [|a l IH]; intros e; cbn [parallelResults].
  - simpl. by rewrite app_nil_r.
  - pose proof (executeAction_trace a d e) as Ha.
    destruct (executeAction a d e) as [[msg|p] e1]; simpl in Ha;
      specialize (IH e1); destruct (parallelResults l d e1) as [rs e2];
      destruct IH as [Hnames Htrace]; cbn [fmap list_fmap Result.action errored succeeded];
      (split; [by f_equal | by rewrite Htrace, Ha, <- app_assoc]).
Qed.

(** *** The whole run *)


Lemma executeActions_summary config answers path e :
  let out := (executeActions config answers path e).1 in
  successful (Outcome.summary out)
    = length (List.filter Result.success (Outcome.results out)) ∧
  failed (Outcome.summary out)
    = length (List.filter (λ r, negb (Result.success r)) (Outcome.results out)) ∧
  skipped (Outcome.summary out) = 0%nat ∧
  Outcome.success out =
    Nat.eqb (failed (Outcome.summary out)) 0
    && Nat.ltb 0 (successful (Outcome.summary out)) ∧
  (length (Outcome.results out)
   ≤ length (enabledActions config answers e).1.1)%nat.
Proof.
  unfold executeActions.
  destruct (enabledActions config answers e) as [[ready answers'] e1].
  destruct (executeInParallel config).
  - pose proof (parallelResults_once ready
      {| sd_formData := answers'; sd_navigationPath := path |} e1) as Hpar.
    destruct (parallelResults ready _ e1) as [parallel e2]. simpl.
    destruct Hpar as [Hnames _]. split_and!; try done.
    apply (f_equal length) in Hnames. rewrite !length_fmap in Hnames. lia.
  - pose proof (sequentialLoop_accounts ready
      {| sd_formData := answers'; sd_navigationPath := path |} []
      {| successful := 0; failed := 0; skipped := 0 |} e1) as Hseq.
    destruct (sequentialLoop ready _ [] _ e1) as [[results summary] e2].
    destruct Hseq as (new & events & -> & Hlen & Hs & Hf & Hk & _). simpl in *.
    by split_and!.
Qed.


(** The actions that reach execution: enabled ones, ascending by [order] with
    ties in declaration order, thinned out by the condition filter. *)
Lemma enabledActions_pipeline config answers e :
  let ready := (enabledActions config answers e).1.1 in
  ready `sublist_of` sortByOrder (enabledOnly (actions config)) ∧
  StronglySorted byOrder ready ∧
  sortByOrder (enabledOnly (actions config)) ≡ₚ enabledOnly (actions config) ∧
  (∀ k, filter (λ b, Action.order b = k)
          (sortByOrder (enabledOnly (actions config)))
        = filter (λ b, Action.order b = k) (enabledOnly (actions config))) ∧
  (∀ a, a ∈ ready → a ∈ actions config ∧ Action.enabled a = true).
Proof.
  simpl. unfold enabledActions.
  pose proof (filterByCondition_sublist
                (sortByOrder (enabledOnly (actions config))) answers e) as Hsub.
  split_and!.
  - done.
  - eapply StronglySorted_sublist; [done|apply sortByOrder_sorted].
  - apply sortByOrder_Permutation.
  - intros k. apply sortByOrder_stable.
  - intros a Ha. eapply elem_of_sublist in Ha; [|done].
    rewrite sortByOrder_Permutation in Ha.
    unfold enabledOnly in Ha. apply list_elem_of_In, filter_In in Ha as [Ha ?].
    split; [by apply list_elem_of_In|done].
Qed.

(** The summary never counts a skipped action. *)
Lemma executeActions_skipped config answers path e :
  skipped (Outcome.summary (executeActions config answers path e).1) = 0%nat.
Proof. by destruct (executeActions_summary config answers path e) as (_ & _ & ? & _). Qed.

(** A condition that does not parse lets its action through, wherever it
    stands in the list. *)
Lemma evaluateCondition_unparsed c answers e :
  parses c = false → (evaluateCondition (Some c) answers e).1.1 = true.
Proof.
  intros Hparse. destruct (trimIsEmpty c) eqn:Hblank.
  - by rewrite evaluateCondition_blank.
  - by rewrite evaluateCondition_malformed.
Qed.

Lemma filterByCondition_keeps_unparsed l a c answers e :
  a ∈ l → Action.condition a = Some c → parses c = false →
  a ∈ (filterByCondition l answers e).1.1.
Proof.
  intros Hin Hc Hparse. revert answers e.
  induction l as [|b l IH]; intros answers e; [by apply elem_of_nil in Hin|].
  simpl.
  destruct (evaluateCondition (Action.condition b) answers e)
    as [[keep answers1] e1] eqn:Hb.
  apply elem_of_cons in Hin as [<-|Hin].
  - pose proof (evaluateCondition_unparsed c answers e Hparse) as Hkeep.
    rewrite <- Hc, Hb in Hkeep. simpl in Hkeep. subst keep.
    destruct (filterByCondition l answers1 e1) as [[rest ?] ?]. simpl.
    apply elem_of_cons. by left.
  - specialize (IH Hin answers1 e1).
    destruct (filterByCondition l answers1 e1) as [[rest ?] ?]. simpl in *.
    destruct keep; [apply elem_of_cons; by right|done].
Qed.

(** C9. Condition evaluation yields [true], with answers and environment
    untouched, when the expression is absent, empty or blank. On an expression
    that does not parse it yields [true] and its only effect is one warning.
    [false] can only come from an expression that parsed and returned a falsy
    value, so an action whose condition does not parse always passes the
    condition filter. *)
Theorem evaluateCondition_fails_open answers e :
  evaluateCondition None answers e = (true, answers, e) ∧
  evaluateCondition (Some "") answers e = (true, answers, e) ∧
  (∀ c, trimIsEmpty c = true →
        evaluateCondition (Some c) answers e = (true, answers, e)) ∧
  (∀ c, trimIsEmpty c = false → parses c = false →
        evaluateCondition (Some c) answers e
        = (true, answers, warnCondition c e)) ∧
  (∀ c, (evaluateCondition (Some c) answers e).1.1 = false →
        parses c = true ∧
        ∃ answers' w, call c answers (world e) = (Returned false, answers', w)) ∧
  (∀ l a c, a ∈ l → Action.condition a = Some c → parses c = false →
            a ∈ (filterByCondition l answers e).1.1).
Proof.
  split_and!.
  - done.
  - done.
  - intros c. apply evaluateCondition_blank.
  - intros c. apply evaluateCondition_malformed.
  - intros c Hfalse.
    destruct (trimIsEmpty c) eqn:Hblank;
      [by rewrite evaluateCondition_blank in Hfalse|].
    destruct (parses c) eqn:Hparse;
      [|by rewrite evaluateCondition_malformed in Hfalse].
    split; [done|]. rewrite evaluateCondition_run in Hfalse by done.
    destruct (call c answers (world e)) as [[[truthy|] answers'] w];
      simpl in Hfalse; [|done].
    subst truthy. by exists answers', w.
  - intros l a c. apply filterByCondition_keeps_unparsed.
Qed.

(** C10, as amended. The boolean is determined by the expression, the answers
    and the state of the host in which the expression runs: two runs from the
    same world agree. An absent or blank expression runs no code (answers and
    environment are returned as they were); any other expression that parses
    is run by the host as code, and what comes back (the truthiness it
    returned, or [true] if it threw, the answers object and the world as the
    code left them) is then the result. *)
Theorem evaluateCondition_runs_host_code condition answers e :
  (∀ e2, world e2 = world e →
     (evaluateCondition condition answers e2).1.1
     = (evaluateCondition condition answers e).1.1) ∧
  (match condition with
   | None => True
   | Some c => trimIsEmpty c = true
   end →
   evaluateCondition condition answers e = (true, answers, e)) ∧
  (∀ c r answers' w,
     condition = Some c → trimIsEmpty c = false → parses c = true →
     call c answers (world e) = (r, answers', w) →
     let '(keep, answersAfter, e') := evaluateCondition condition answers e in
     keep = match r with Returned truthy => truthy | Threw => true end ∧
     answersAfter = answers' ∧ world e' = w).
Proof.
  split_and!.
  - intros e2 Hw. destruct condition as [c|]; [|done].
    destruct (trimIsEmpty c) eqn:Hblank;
      [by rewrite !evaluateCondition_blank|].
    destruct (parses c) eqn:Hparse;
      [|by rewrite !evaluateCondition_malformed].
    rewrite !evaluateCondition_run by done. rewrite Hw.
    by destruct (call c answers (world e)) as [[[truthy|] answers'] w].
  - destruct condition as [c|]; [|done]. apply evaluateCondition_blank.
  - intros c r answers' w -> Hblank Hparse Hcall.
    rewrite evaluateCondition_run by done. rewrite Hcall.
    by destruct r.
Qed.

End Orchestrator.

(** * Scenarios *)

Example Q1_yes : getNextFieldId Q1 (VStr "Yes") quiz = Some "Q3".
Proof. vm_compute. reflexivity. Qed.

Example Q1_no : getNextFieldId Q1 (VStr "No") quiz = Some "Q2".
Proof. vm_compute. reflexivity. Qed.

Example Q1_yes_advance :
  currentFieldId (run quiz [SubmitAnswer "Q1" (VStr "Yes"); Advance VUndefined])
  = "Q3".
Proof. vm_compute. reflexivity. Qed.

Example retreat_then_advance :
  let there := run quiz [SubmitAnswer "Q1" (VStr "Yes"); Advance VUndefined] in
  let back := run quiz [SubmitAnswer "Q1" (VStr "Yes"); Advance VUndefined;
                        Retreat; Advance VUndefined] in
  currentFieldId back = currentFieldId there ∧
  navigationHistory back = navigationHistory there.
Proof. vm_compute. split; reflexivity. Qed.

(** C1, counterexample to the claim as stated: [P1] has an existing
    [defaultNext] target, which the stated precedence selects, yet advancing
    goes to the next field in linear order. *)
Lemma defaultNext_ignored_without_rules :
  precedenceNext P1 (VStr "x") detour = Some "Q3" ∧
  getNextFieldId P1 (VStr "x") detour = Some "Q2".
Proof. vm_compute. split; reflexivity. Qed.

Lemma getNextFieldId_precedence_witness :
  conditionalNext Q1 = Some (list_to_map [("Yes", "Q3"); ("No", "Q2")]) ∧
  (list_to_map [("Yes", "Q3"); ("No", "Q2")] : gmap string string)
    !! answerKey Q1 (VStr "Yes") = Some "Q3" ∧
  "Q3" ≠ "" ∧
  is_Some (findFieldById quiz "Q3") ∧
  getNextFieldId Q1 (VStr "Yes") quiz = Some "Q3".
Proof.
  assert (Hrule : (list_to_map [("Yes", "Q3"); ("No", "Q2")] : gmap string string)
                    !! answerKey Q1 (VStr "Yes") = Some "Q3")
    by (vm_compute; reflexivity).
  assert (Hexists : is_Some (findFieldById quiz "Q3"))
    by (exists Q3; vm_compute; reflexivity).
  split_and!; [reflexivity | exact Hrule | discriminate | exact Hexists |].
  destruct (getNextFieldId_precedence Q1 (VStr "Yes") quiz) as [Hrules _].
  destruct (Hrules _ eq_refl) as (Hfirst & _).
  apply (Hfirst "Q3" Hrule); [discriminate | exact Hexists].
Defined.

(** C2, the code at a failing input: the first field is required, its id is
    [constructor] and nothing is stored, so its answer is absent; but
    [formData["constructor"]] reads the function inherited from
    [Object.prototype], validation passes and [handleNext] moves to [Q2]
    with no error. The same form with an id that names no inherited member
    is blocked. *)
Theorem required_field_with_inherited_id_advances :
  let st := initialState unanswered in
  currentField unanswered st = Some member ∧
  required member = true ∧
  formData st !! id member = None ∧
  validateCurrentField unanswered VUndefined st = true ∧
  handleNext unanswered VUndefined st =
    {| currentFieldId := "Q2";
       navigationHistory := ["constructor"; "Q2"];
       formData := ∅;
       error := false |} ∧
  let plain :=
    {| id := "Q0"; type := text; required := true;
       conditionalNext := None; defaultNext := None |} in
  handleNext [plain; Q2] VUndefined (initialState [plain; Q2]) =
    {| currentFieldId := "Q0";
       navigationHistory := ["Q0"];
       formData := ∅;
       error := true |}.
Proof. vm_compute. split_and!; reflexivity. Qed.

Lemma advance_blocked_on_required_empty_witness :
  currentField quiz (initialState quiz) = Some Q1 ∧
  required Q1 = true ∧
  emptyOrAbsent (effectiveValue Q1 VUndefined (initialState quiz)) = true ∧
  currentFieldId (handleNext quiz VUndefined (initialState quiz)) = "Q1" ∧
  navigationHistory (handleNext quiz VUndefined (initialState quiz)) = ["Q1"] ∧
  error (handleNext quiz VUndefined (initialState quiz)) = true.
Proof.
  assert (Hcur : currentField quiz (initialState quiz) = Some Q1)
    by (vm_compute; reflexivity).
  assert (Hempty : emptyOrAbsent (effectiveValue Q1 VUndefined (initialState quiz))
                   = true) by (vm_compute; reflexivity).
  split_and!; [exact Hcur | reflexivity | exact Hempty | ..];
    destruct (advance_blocked_on_required_empty quiz VUndefined
                (initialState quiz) Q1 Hcur eq_refl Hempty)
      as [(Hid & Hhist & _ & Herr & _) _].
  - exact Hid.
  - exact Hhist.
  - exact Herr.
Defined.

Lemma navigationHistory_invariant_witness :
  let st := run quiz [SubmitAnswer "Q1" (VStr "No"); Advance VUndefined;
                      Advance VUndefined; Retreat] in
  navigationHistory st ≠ [] ∧
  head (navigationHistory st) = Some "Q1" ∧
  last (navigationHistory st) = Some (currentFieldId st).
Proof.
  exact (proj1 (navigationHistory_invariant quiz
    [SubmitAnswer "Q1" (VStr "No"); Advance VUndefined; Advance VUndefined;
     Retreat])).
Defined.

(** ** Submission scenarios on the scripted host *)

(** C4, the code at a failing input: [gated] is enabled and removed by the
    condition filter, [plain] runs; the summary reports one success and no
    skipped action. *)
Theorem condition_filtered_action_not_counted :
  let gated := hook "gated" 1 (Some "false") None None None in
  let plain := hook "plain" 2 None None None None in
  let config := {| actions := [gated; plain]; executeInParallel := false |} in
  let e := scriptedEnv 0 [inr "{}"] in
  (enabledActions config ∅ e).1.1 = [plain] ∧
  (executeActions config ∅ [] e).1 =
    {| Outcome.success := true;
       Outcome.results := [succeeded plain (Response "{}")];
       Outcome.summary := {| successful := 1; failed := 0; skipped := 0 |} |}.
Proof. vm_compute. split; reflexivity. Qed.


Example nothing_to_run :
  let gated := hook "gated" 1 (Some "false") None None None in
  let config := {| actions := [gated]; executeInParallel := false |} in
  (executeActions config ∅ [] (scriptedEnv 0 [])).1 =
    {| Outcome.success := false; Outcome.results := [];
       Outcome.summary := noCounts |}.
Proof. vm_compute. reflexivity. Qed.

Lemma stop_ends_sequential_loop_witness :
  let A := hook "A" 1 None None (Some ErrorStop) None in
  let B := hook "B" 2 None None None None in
  let e := scriptedEnv 0 [inl "Webhook failed: 500"; inr "{}"] in
  runsThrough [] noData e = true ∧
  (executeActionWithRetry A noData 1 (sequentialLoop [] noData [] noCounts e).2).1
    = inl "Webhook failed: 500" ∧
  Action.onError A = Some ErrorStop ∧
  sequentialLoop ([] ++ A :: [B]) noData [] noCounts e =
  sequentialLoop ([] ++ [A]) noData [] noCounts e.
Proof.
  intros A B e.
  assert (Hfail : (executeActionWithRetry A noData 1
                     (sequentialLoop [] noData [] noCounts e).2).1
                  = inl "Webhook failed: 500") by (vm_compute; reflexivity).
  split_and!; [reflexivity | exact Hfail | reflexivity |].
  refine (proj1 (stop_ends_sequential_loop [] A [B] noData [] noCounts e
                   eq_refl _)).
  right. exists "Webhook failed: 500". split; [exact Hfail | reflexivity].
Defined.

Example stop_on_error_trace :
  let A := hook "A" 1 None None (Some ErrorStop) None in
  let B := hook "B" 2 None None None None in
  let config := {| actions := [B; A]; executeInParallel := false |} in
  let run := executeActions config ∅ [] (scriptedEnv 0 [inl "down"; inr "{}"]) in
  trace run.2 = [EvDispatch "A"] ∧
  Outcome.results run.1 = [errored A "down"] ∧
  Outcome.summary run.1 = {| successful := 0; failed := 1; skipped := 0 |}.
Proof. vm_compute. split_and!; reflexivity. Qed.

Example stop_on_success_trace :
  let A := hook "A" 1 None (Some SuccessStop) None None in
  let B := hook "B" 2 None None None None in
  let config := {| actions := [B; A]; executeInParallel := false |} in
  let run := executeActions config ∅ [] (scriptedEnv 0 [inr "{}"; inr "{}"]) in
  trace run.2 = [EvDispatch "A"] ∧
  Outcome.results run.1 = [succeeded A (Response "{}")] ∧
  Outcome.summary run.1 = {| successful := 1; failed := 0; skipped := 0 |}.
Proof. vm_compute. split_and!; reflexivity. Qed.

Lemma retry_bounded_with_backoff_witness :
  let R := hook "R" 1 None None (Some ErrorRetry) (Some 3%Z) in
  let e := scriptedEnv 0 [inl "down"; inl "down"; inr "{}"] in
  Action.retryAttempts R = Some 3%Z ∧ (1 ≤ 3)%Z ∧
  (executeActionWithRetry R noData 1 e).1 = inr (Response "{}") ∧
  delaysOf (trace (executeActionWithRetry R noData 1 e).2) = [2000; 4000]%Z ∧
  sequentialLoop [R] noData [] noCounts e =
    ([succeeded R (Response "{}")],
     {| successful := 1; failed := 0; skipped := 0 |},
     (executeActionWithRetry R noData 1 e).2).
Proof.
  intros R e.
  split; [reflexivity|]. split; [lia|].
  pose proof (retry_bounded_with_backoff R noData e 3 eq_refl ltac:(lia)) as W.
  destruct (executeActionWithRetry R noData 1 e) as [r e'] eqn:Hrun.
  destruct W as (_ & _ & Hthird).
  destruct (Hthird eq_refl eq_refl "down" _ "down" _ (Response "{}") _
              eq_refl eq_refl eq_refl) as (-> & _ & Htrace & Hloop).
  split_and!; [reflexivity | | apply (Hloop [] noCounts)].
  simpl. rewrite Htrace. reflexivity.
Defined.

Example retry_scenario_end_to_end :
  let R := hook "R" 1 None None (Some ErrorRetry) (Some 3%Z) in
  let config := {| actions := [R]; executeInParallel := false |} in
  let run := executeActions config ∅ []
               (scriptedEnv 0 [inl "down"; inl "down"; inr "{}"]) in
  run.1 = {| Outcome.success := true;
             Outcome.results := [succeeded R (Response "{}")];
             Outcome.summary := {| successful := 1; failed := 0; skipped := 0 |} |} ∧
  trace run.2 = [EvDispatch "R"; EvDelay 2000; EvDispatch "R"; EvDelay 4000;
                 EvDispatch "R"].
Proof. vm_compute. split; reflexivity. Qed.

Example retry_exhausted :
  let R := hook "R" 1 None None (Some ErrorRetry) (Some 3%Z) in
  let config := {| actions := [R]; executeInParallel := false |} in
  let run := executeActions config ∅ []
               (scriptedEnv 0 [inl "down"; inl "down"; inl "still down"; inr "{}"]) in
  run.1 = {| Outcome.success := false;
             Outcome.results := [errored R "still down"];
             Outcome.summary := {| successful := 0; failed := 1; skipped := 0 |} |} ∧
  dispatches "R" (trace run.2) = 3%nat.
Proof. vm_compute. split; reflexivity. Qed.

(** C8, the code at a failing input: in parallel mode an action with
    [onError = retry] and three allowed attempts is dispatched once; its first
    failure is final although the next attempt would have succeeded, as it
    does in sequential mode. *)
Theorem parallel_mode_does_not_retry :
  let R := hook "R" 1 None None (Some ErrorRetry) (Some 3%Z) in
  let e := scriptedEnv 0 [inl "Webhook failed: 500"; inr "{}"] in
  let parallel :=
    executeActions {| actions := [R]; executeInParallel := true |} ∅ [] e in
  let sequential :=
    executeActions {| actions := [R]; executeInParallel := false |} ∅ [] e in
  (parallel.1 =
     {| Outcome.success := false;
        Outcome.results := [errored R "Webhook failed: 500"];
        Outcome.summary := {| successful := 0; failed := 1; skipped := 0 |} |} ∧
   trace parallel.2 = [EvDispatch "R"]) ∧
  (sequential.1 =
     {| Outcome.success := true;
        Outcome.results := [succeeded R (Response "{}")];
        Outcome.summary := {| successful := 1; failed := 0; skipped := 0 |} |} ∧
   trace sequential.2 = [EvDispatch "R"; EvDelay 2000; EvDispatch "R"]).
Proof. vm_compute. split_and!; reflexivity. Qed.

Example parallel_ignores_stop :
  let A := hook "A" 1 None (Some SuccessStop) (Some ErrorStop) None in
  let B := hook "B" 2 None None None None in
  let config := {| actions := [A; B]; executeInParallel := true |} in
  trace (executeActions config ∅ [] (scriptedEnv 0 [inr "{}"; inr "{}"])).2
  = [EvDispatch "A"; EvDispatch "B"].
Proof. vm_compute. reflexivity. Qed.

Lemma evaluateCondition_fails_open_witness :
  trimIsEmpty "formData." = false ∧
  parses (Host := scriptedHost) "formData." = false ∧
  evaluateCondition (Some "formData.") ∅ (scriptedEnv 0 []) =
    (true, ∅, warnCondition "formData." (scriptedEnv 0 [])).
Proof.
  split_and!; [reflexivity | reflexivity |].
  destruct (evaluateCondition_fails_open (H := scriptedHost) ∅ (scriptedEnv 0 []))
    as (_ & _ & _ & Hmalformed & _).
  apply Hmalformed; reflexivity.
Defined.

(** C10, counterexample to the claim as stated: the same expression over the
    same (empty) answers is true in one run and false in another, because the
    expression reads the host's clock. *)
Lemma same_expression_same_answers_different_result :
  (evaluateCondition (Some "Date.now() % 2 === 0") ∅ (scriptedEnv 0 [])).1.1 = true ∧
  (evaluateCondition (Some "Date.now() % 2 === 0") ∅ (scriptedEnv 1 [])).1.1 = false.
Proof. vm_compute. split; reflexivity. Qed.

Lemma evaluateCondition_runs_host_code_witness :
  let c := "formData.plan === 'pro'" in
  let answers : gmap string value := {["plan" := VStr "pro"]} in
  let e := scriptedEnv 0 [] in
  trimIsEmpty c = false ∧ parses (Host := scriptedHost) c = true ∧
  call c answers (world e) = (Returned true, answers, world e) ∧
  (evaluateCondition (Some c) answers e).1.1 = true.
Proof.
  intros c answers e.
  assert (Hcall : call c answers (world e) = (Returned true, answers, world e))
    by (vm_compute; reflexivity).
  split_and!; [reflexivity | reflexivity | exact Hcall |].
  destruct (evaluateCondition_runs_host_code (Some c) answers e)
    as (_ & _ & Hrun).
  specialize (Hrun c _ _ _ eq_refl eq_refl eq_refl Hcall).
  destruct (evaluateCondition (Some c) answers e) as [[keep answers'] e'].
  exact (proj1 Hrun).
Defined.

(** * Further properties of the navigation *)

Section NavigatorMore.

Implicit Types (fields : list FormPage) (st : FormState) (v : value).

Lemma findFieldById_lookup fields fieldId field :
  findFieldById fields fieldId = Some field →
  field ∈ fields ∧ id field = fieldId.
Proof.
  unfold findFieldById.
  destruct (list_find _ fields) as [[i g]|] eqn:Hfind; [|done].
  intros [= <-]. apply list_find_Some in Hfind as (Hi & Hid & _).
  split; [by eapply list_elem_of_lookup_2|done].
Qed.

(** X9. [findFieldById] and [getFieldIndex] agree and return the first field
    with the requested id; with no such field one is [undefined] and the other
    [-1]. *)
Theorem findFieldById_first_match fields fieldId :
  match findFieldById fields fieldId with
  | Some field =>
      ∃ i, getFieldIndex fields fieldId = Some i ∧
           fields !! i = Some field ∧ id field = fieldId ∧
           ∀ j other, fields !! j = Some other → (j < i)%nat →
                      id other ≠ fieldId
  | None =>
      getFieldIndex fields fieldId = None ∧
      ∀ other, other ∈ fields → id other ≠ fieldId
  end.
Proof.
  unfold findFieldById, getFieldIndex.
  destruct (list_find _ fields) as [[i g]|] eqn:Hfind; simpl.
  - apply list_find_Some in Hfind as (Hi & Hid & Hfirst).
    exists i. by split_and!.
  - split; [done|]. apply list_find_None in Hfind.
    intros other Hin. by eapply Forall_forall in Hfind.
Qed.

(** Every state the session reaches has an existing current field and a
    history of existing fields. *)
Lemma visited_exist_step fields op st :
  Forall (λ i, is_Some (findFieldById fields i)) (navigationHistory st) →
  wellFormed fields st →
  Forall (λ i, is_Some (findFieldById fields i))
    (navigationHistory (applyOp fields op st)).
Proof.
  intros Hall Hwf. unfold applyOp, resetIfInvalid.
  set (st' := match op with
              | Advance o => handleNext fields o st
              | Retreat => handlePrevious st
              | SubmitAnswer i w => handleInputChange i w st
              | Toggle i o => handleCheckboxToggle i o st
              end).
  assert (Hst' : Forall (λ i, is_Some (findFieldById fields i))
                   (navigationHistory st')).
  { subst st'. destruct op as [o| |i w|i o]; simpl; try done.
    - pose proof (handleNext_cases fields o st) as [Hcase _]. simpl in Hcase.
      destruct (advanceTarget fields o st) as [next|] eqn:Hadv.
      + destruct Hcase as (-> & _). apply Forall_app. split; [done|].
        constructor; [|done]. unfold advanceTarget in Hadv.
        destruct (currentField fields st); [|done].
        destruct (validateCurrentField fields o st); [|done].
        by apply existingTarget_Some in Hadv as (_ & _ & ?).
      + by destruct Hcase as [-> _].
    - unfold handlePrevious. case_bool_decide; simpl; [|done].
      by apply Forall_take. }
  destruct (currentField fields st'); [done|].
  destruct fields as [|field rest]; [done|]. simpl.
  constructor; [|done]. rewrite (findFieldById_first _ field rest eq_refl).
  by eexists.
Qed.

(** X1. In a form with at least one field, whatever the user does, the
    current field id names an existing field, so does every entry of the
    navigation history, and the self-healing reset has nothing to do. *)
Theorem current_field_always_resolves fields ops :
  fields ≠ [] →
  let st := run fields ops in
  is_Some (currentField fields st) ∧
  Forall (λ i, is_Some (findFieldById fields i)) (navigationHistory st) ∧
  resetIfInvalid fields st = st.
Proof.
  intros Hne. simpl.
  assert (Hall : Forall (λ i, is_Some (findFieldById fields i))
                   (navigationHistory (run fields ops))).
  { unfold run.
    assert (Hstart : Forall (λ i, is_Some (findFieldById fields i))
        (navigationHistory (resetIfInvalid fields (initialState fields))) ∧
      wellFormed fields (resetIfInvalid fields (initialState fields))).
    { split; [|apply wellFormed_reset, wellFormed_initial].
      destruct fields as [|field rest]; [done|].
      assert (Hfirst : is_Some (findFieldById (field :: rest) (id field)))
        by (rewrite (findFieldById_first _ field rest eq_refl); by eexists).
      unfold resetIfInvalid, currentField. simpl.
      destruct Hfirst as [f Hf]. rewrite Hf. simpl.
      constructor; [rewrite Hf; by eexists|constructor]. }
    revert Hstart. generalize (resetIfInvalid fields (initialState fields)).
    induction ops as [|op ops IH]; intros st [Hall Hwf]; simpl; [done|].
    apply IH. split; [by apply visited_exist_step|by apply wellFormed_applyOp]. }
  destruct (wellFormed_run fields ops) as [_ Hlast].
  assert (Hcur : is_Some (currentField fields (run fields ops))).
  { apply last_Some_elem_of in Hlast.
    by eapply Forall_forall in Hall. }
  split_and!; [done|done|by apply resetIfInvalid_valid].
Qed.

(** X2. Moving forward or backward never touches the answers: after any
    history of operations, any further sequence of advances and retreats
    leaves the answer mapping as it was. *)
Theorem navigation_keeps_answers fields ops moves :
  Forall (λ op, match op with Advance _ | Retreat => True | _ => False end)
    moves →
  formData (run fields (ops ++ moves)) = formData (run fields ops).
Proof.
  intros Hmoves. unfold run. rewrite foldl_app.
  generalize (foldl (λ st op, applyOp fields op st)
                (resetIfInvalid fields (initialState fields)) ops).
  induction Hmoves as [|op moves Hop _ IH]; intros st; simpl; [done|].
  rewrite IH. unfold applyOp.
  assert (Hreset : ∀ s, formData (resetIfInvalid fields s) = formData s).
  { intros s. unfold resetIfInvalid.
    destruct (currentField fields s); [done|]. by destruct fields. }
  rewrite Hreset. destruct op as [o| |?|?]; try done.
  - by destruct (handleNext_cases fields o st) as [_ ?].
  - unfold handlePrevious. by case_bool_decide.
Qed.

(** X3. An advance that moves is undone by a retreat: history, current field
    and answers are those before the advance. *)
Theorem advance_then_retreat fields ops overrideValue :
  let st := run fields ops in
  let st' := handleNext fields overrideValue st in
  navigationHistory st' ≠ navigationHistory st →
  navigationHistory (handlePrevious st') = navigationHistory st ∧
  currentFieldId (handlePrevious st') = currentFieldId st ∧
  formData (handlePrevious st') = formData st.
Proof.
  simpl. intros Hmoved.
  destruct (wellFormed_run fields ops) as [Hhead Hlast].
  set (st := run fields ops) in *.
  pose proof (handleNext_cases fields overrideValue st) as [Hcase Hdata].
  simpl in Hcase.
  destruct (advanceTarget fields overrideValue st) as [next|];
    [|by destruct Hcase].
  destruct Hcase as (Hhist & _).
  destruct (navigationHistory st) as [|x l] eqn:Hst using rev_ind;
    [done|clear IHl].
  rewrite last_snoc in Hlast. injection Hlast as <-.
  destruct (handlePrevious_pop (handleNext fields overrideValue st) l x next)
    as (Hh & Hc & Hd); [by rewrite Hhist, <- app_assoc|].
  by rewrite Hh, Hc, Hd, Hdata.
Qed.

(** X6. From any reachable state, pressing "back" once per history entry but
    one always ends on the first field, where going back is disabled. *)
Theorem retreat_reaches_first_field fields ops :
  let st := run fields ops in
  let home := Nat.iter (length (navigationHistory st) - 1) handlePrevious st in
  navigationHistory home = [firstFieldId fields] ∧
  currentFieldId home = firstFieldId fields ∧
  canGoBack home = false.
Proof.
  simpl. pose proof (wellFormed_run fields ops) as Hwf.
  generalize dependent (run fields ops). intros st Hwf.
  remember (length (navigationHistory st) - 1)%nat as n eqn:Hn.
  revert st Hwf Hn. induction n as [|n IH]; intros st [Hhead Hlast] Hn.
  - simpl. unfold canGoBack.
    destruct (navigationHistory st) as [|x [|y l]] eqn:Hst.
    + done.
    + simpl in Hhead, Hlast. injection Hhead as <-. injection Hlast as <-. done.
    + simpl in Hn. lia.
  - rewrite Nat.iter_succ_r. apply IH.
    + by apply wellFormed_handlePrevious.
    + destruct (two_last (navigationHistory st)) as (older & p & c & Hst); [lia|].
      destruct (handlePrevious_pop st older p c Hst) as (-> & _).
      rewrite Hst in Hn. rewrite !length_app in *. simpl in *. lia.
Qed.

Lemma list_find_NoDup fields i field :
  NoDup (id <$> fields) → fields !! i = Some field →
  list_find (λ g, id g = id field) fields = Some (i, field).
Proof.
  intros Hnd Hi. apply list_find_Some. split_and!; [done|done|].
  intros j other Hj Hlt Heq.
  assert (j = i); [|lia].
  eapply (NoDup_lookup (id <$> fields) j i (id field)); [done|..].
  - by rewrite list_lookup_fmap, Hj, <- Heq.
  - by rewrite list_lookup_fmap, Hi.
Qed.

(** X4. Linear flow: when the field ids are pairwise distinct, the current
    field is the one at position [i], it has no conditional rules, its answer
    passes validation and the field after it has a non-empty id, then
    [handleNext] moves to the field at position [i + 1]. *)
Theorem linear_advance fields st overrideValue i field nextField :
  NoDup (id <$> fields) →
  fields !! i = Some field →
  fields !! S i = Some nextField →
  currentFieldId st = id field →
  conditionalNext field = None →
  validateCurrentField fields overrideValue st = true →
  id nextField ≠ "" →
  let st' := handleNext fields overrideValue st in
  currentFieldId st' = id nextField ∧
  navigationHistory st' = navigationHistory st ++ [id nextField] ∧
  getFieldIndex fields (currentFieldId st') = Some (S i) ∧
  error st' = false.
Proof.
  intros Hnd Hi Hnext Hcur Hrules Hvalid Hid. simpl.
  assert (Hfield : currentField fields st = Some field).
  { unfold currentField, findFieldById.
    by rewrite Hcur, (list_find_NoDup _ _ _ Hnd Hi). }
  assert (Hresolve : ∀ w, getNextFieldId field w fields = Some (id nextField)).
  { intros w. rewrite getNextFieldId_spec, evaluateConditionalNext_spec, Hrules.
    unfold linearNext, getFieldIndex.
    rewrite (list_find_NoDup _ _ _ Hnd Hi). simpl.
    pose proof (lookup_lt_Some _ _ _ Hnext) as Hlt.
    rewrite bool_decide_eq_true_2 by lia.
    by rewrite Nat.add_1_r, Hnext. }
  unfold handleNext. rewrite Hfield, Hvalid, Hresolve. simpl.
  apply truthyStr_true in Hid. rewrite Hid. simpl. split_and!; try done.
  unfold getFieldIndex. by rewrite (list_find_NoDup _ _ _ Hnd Hnext).
Qed.

(** X5. [isLastStep] and [handleNext] agree: on a last step "next" changes
    neither the current field nor the history; on any other step whose stored
    answer passes validation, in a form whose ids are all non-empty, "next"
    adds one entry to the history. *)
Theorem isLastStep_agrees_with_handleNext fields st :
  (isLastStep fields st = true →
   currentFieldId (handleNext fields VUndefined st) = currentFieldId st ∧
   navigationHistory (handleNext fields VUndefined st) = navigationHistory st) ∧
  (isLastStep fields st = false →
   validateCurrentField fields VUndefined st = true →
   Forall (λ field, id field ≠ "") fields →
   ∃ next,
     navigationHistory (handleNext fields VUndefined st)
       = navigationHistory st ++ [next] ∧
     currentFieldId (handleNext fields VUndefined st) = next).
Proof.
  unfold isLastStep, handleNext.
  destruct (currentField fields st) as [field|] eqn:Hcur; [|by split].
  change (effectiveValue field VUndefined st)
    with (readAnswer (formData st) (id field)).
  destruct (getNextFieldId field (readAnswer (formData st) (id field)) fields)
    as [next|] eqn:Hnext.
  - split; [done|]. intros _ Hvalid Hids. rewrite Hvalid. simpl.
    assert (Hne : truthyStr next = true).
    { apply truthyStr_true.
      destruct (getNextFieldId_exists _ _ _ _ Hnext) as [target Htarget].
      apply findFieldById_lookup in Htarget as [Hin <-].
      by eapply Forall_forall in Hids. }
    rewrite Hne. by exists next.
  - split; [|done]. intros _.
    destruct (validateCurrentField fields VUndefined st); by simpl.
Qed.

Lemma filter_others (option : string) (l : list string) :
  option ∉ l → filter (λ s : string, s ≠ option) l = l.
Proof.
  induction l as [|x l IH]; [done|].
  rewrite not_elem_of_cons. intros [Hne Hnot].
  rewrite filter_cons, decide_True by done. by rewrite IH.
Qed.

Lemma handleCheckboxToggle_read fieldId option st :
  readAnswer (formData (handleCheckboxToggle fieldId option st)) fieldId =
  VArr (let old := match readAnswer (formData st) fieldId with
                   | VArr l => l
                   | _ => []
                   end in
        if bool_decide (option ∈ old)
        then filter (λ s : string, s ≠ option) old
        else old ++ [option]).
Proof.
  unfold handleCheckboxToggle. simpl. unfold readAnswer at 1.
  by rewrite lookup_insert_eq.
Qed.

(** X7. Toggling a checkbox option flips exactly that option in the stored
    array (a value that is not an array counts as no selection), leaves other
    answers alone, and toggling an option that was not selected twice gives
    back the original array. *)
Theorem checkbox_toggle_flips fieldId option st :
  let old := match readAnswer (formData st) fieldId with
             | VArr l => l
             | _ => []
             end in
  let st' := handleCheckboxToggle fieldId option st in
  (∃ new,
     readAnswer (formData st') fieldId = VArr new ∧
     ∀ o, o ∈ new ↔ (o = option ∧ option ∉ old) ∨ (o ≠ option ∧ o ∈ old)) ∧
  (∀ other, other ≠ fieldId →
     readAnswer (formData st') other = readAnswer (formData st) other) ∧
  (option ∉ old →
   readAnswer (formData (handleCheckboxToggle fieldId option st')) fieldId
   = VArr old).
Proof.
  intros old st'. split_and!.
  - eexists. split; [apply handleCheckboxToggle_read|]. fold old. cbv zeta.
    intros o. case_bool_decide as Hin.
    + rewrite list_elem_of_filter. split.
      * intros [Hne Ho]. by right.
      * intros [[-> Hnot]|[Hne Ho]]; [done|by split].
    + rewrite elem_of_app, list_elem_of_singleton. split.
      * intros [Ho | ->]; [right; split; [|done]; by intros -> | by left].
      * intros [[-> _]|[_ Ho]]; [by right|by left].
  - intros other Hne. unfold st', handleCheckboxToggle. simpl. unfold readAnswer.
    by rewrite lookup_insert_ne.
  - intros Hnot. rewrite handleCheckboxToggle_read. unfold st'.
    rewrite handleCheckboxToggle_read. fold old. cbv zeta.
    rewrite (bool_decide_eq_false_2 (option ∈ old)) by done.
    rewrite bool_decide_eq_true_2 by (apply elem_of_app; right; by left).
    f_equal. rewrite filter_app, filter_cons, decide_False by (by intros []).
    rewrite filter_nil, app_nil_r.
    by apply filter_others.
Qed.

(** X8. Unchecking the only selected option of a required checkbox field
    leaves an empty array, on which "next" is refused: the current field and
    the history stay and the error flag is raised. *)
Theorem unchecking_last_option_blocks_required fields st field option :
  currentField fields st = Some field →
  required field = true →
  readAnswer (formData st) (id field) = VArr [option] →
  let st' := handleCheckboxToggle (id field) option st in
  readAnswer (formData st') (id field) = VArr [] ∧
  currentFieldId (handleNext fields VUndefined st') = currentFieldId st ∧
  navigationHistory (handleNext fields VUndefined st') = navigationHistory st ∧
  error (handleNext fields VUndefined st') = true.
Proof.
  intros Hcur Hreq Hsel st'.
  assert (Hread : readAnswer (formData st') (id field) = VArr []).
  { unfold st'. rewrite handleCheckboxToggle_read, Hsel. cbv zeta.
    rewrite bool_decide_eq_true_2 by (by left).
    by rewrite filter_cons, decide_False by (by intros []). }
  assert (Hcur' : currentField fields st' = Some field) by done.
  assert (Hval : validateCurrentField fields VUndefined st' = false).
  { unfold validateCurrentField. rewrite Hcur', Hreq.
    unfold effectiveValue. by rewrite Hread. }
  rewrite (handleNext_rejected _ _ _ _ Hcur' Hval). by simpl.
Qed.

End NavigatorMore.

(** * Properties of rule texts and of the field conversion *)

Section RuleText.

Import JsString.

Implicit Types (s p : string) (c sep : ascii).

Lemma contains_app c s1 s2 :
  contains c (s1 +:+ s2) = contains c s1 || contains c s2.
Proof.
  induction s1 as [|c' s1 IH]; simpl; [done|].
  by rewrite IH, orb_assoc.
Qed.

Lemma split_none sep s : contains sep s = false → split sep s = [s].
Proof.
  induction s as [|c s IH]; simpl; [done|].
  intros [Hc Hs]%orb_false_elim. by rewrite Hc, IH.
Qed.

Lemma split_app sep s1 s2 :
  contains sep s1 = false →
  split sep (s1 +:+ String sep s2) = s1 :: split sep s2.
Proof.
  induction s1 as [|c s1 IH]; simpl.
  - intros _. by rewrite Ascii.eqb_refl.
  - intros [Hc Hs]%orb_false_elim. by rewrite Hc, IH.
Qed.

Lemma split_concat sep (items : list string) :
  items ≠ [] →
  Forall (λ item, contains sep item = false) items →
  split sep (String.concat (String sep "") items) = items.
Proof.
  induction items as [|x [|y rest] IH]; intros Hne Hall; [done|..].
  - simpl. apply split_none. by apply Forall_inv in Hall.
  - change (String.concat (String sep "") (x :: y :: rest))
      with (x +:+ String sep (String.concat (String sep "") (y :: rest))).
    apply Forall_cons in Hall as [Hx Hrest].
    rewrite split_app by done. by rewrite IH.
Qed.

Lemma allWhiteSpace_contains c s :
  contains c s = true → isWhiteSpace c = false → allWhiteSpace s = false.
Proof.
  induction s as [|c' s IH]; simpl; [done|].
  intros [Hc|Hs]%orb_prop Hws.
  - apply Ascii.eqb_eq in Hc as ->. by rewrite Hws.
  - rewrite IH by done. apply andb_false_r.
Qed.

Lemma padding_free c p :
  isWhiteSpace c = false → padding p → contains c p = false.
Proof.
  intros Hc Hp. destruct (contains c p) eqn:Hin; [|done].
  unfold padding in Hp.
  by rewrite (allWhiteSpace_contains c p Hin Hc) in Hp.
Qed.

Lemma trimStart_padding p s : padding p → trimStart (p +:+ s) = trimStart s.
Proof.
  unfold padding. induction p as [|c p IH]; simpl; [done|].
  intros [Hc Hp]%andb_prop. rewrite Hc. by apply IH.
Qed.

Lemma trimEnd_head c s :
  isWhiteSpace c = false → trimEnd (String c s) = String c (trimEnd s).
Proof. intros Hc. simpl. rewrite Hc. by destruct (trimEnd s). Qed.

Lemma trimEnd_blank p : padding p → trimEnd p = "".
Proof.
  unfold padding. induction p as [|c p IH]; simpl; [done|].
  intros [Hc Hp]%andb_prop. by rewrite IH, Hc.
Qed.

Lemma trimEnd_padding s p : padding p → trimEnd (s +:+ p) = trimEnd s.
Proof.
  intros Hp. induction s as [|c s IH]; simpl.
  - by apply trimEnd_blank.
  - by rewrite IH.
Qed.

Lemma trimStart_length s : (String.length (trimStart s) ≤ String.length s)%nat.
Proof.
  induction s as [|c s IH]; simpl; [done|].
  destruct (isWhiteSpace c); simpl; lia.
Qed.

Lemma trimEnd_length s : (String.length (trimEnd s) ≤ String.length s)%nat.
Proof.
  induction s as [|c s IH]; simpl; [done|].
  destruct (trimEnd s); [destruct (isWhiteSpace c)|]; simpl in *; lia.
Qed.

Lemma trim_fixed_head c s :
  trim (String c s) = String c s → isWhiteSpace c = false.
Proof.
  unfold trim. simpl. destruct (isWhiteSpace c); [|done].
  intros Heq. apply (f_equal String.length) in Heq. simpl in Heq.
  pose proof (trimEnd_length (trimStart s)).
  pose proof (trimStart_length s). lia.
Qed.

(** Padding around a clean token is trimmed away. *)
Lemma trim_padded p1 s p2 :
  padding p1 → padding p2 → s ≠ "" → trim s = s →
  trim (p1 +:+ s +:+ p2) = s.
Proof.
  intros Hp1 Hp2 Hne Hs. destruct s as [|c s]; [done|].
  pose proof (trim_fixed_head c s Hs) as Hc.
  unfold trim in *. rewrite trimStart_padding by done.
  simpl in *. rewrite Hc in *.
  change (String c (s +:+ p2)) with (String c s +:+ p2).
  by rewrite trimEnd_padding.
Qed.

Lemma append_truthy s1 s2 : s2 ≠ "" → truthyStr (s1 +:+ s2) = true.
Proof.
  intros Hne. apply truthyStr_true. destruct s1; [done|]. simpl. done.
Qed.

Lemma truthy_padded p1 s p2 : s ≠ "" → truthyStr (p1 +:+ s +:+ p2) = true.
Proof.
  intros Hne. apply append_truthy. by destruct s.
Qed.

Lemma addRule_rendered m answerPad targetPad answer target :
  padding answerPad.1 → padding answerPad.2 →
  padding targetPad.1 → padding targetPad.2 →
  cleanToken answer → cleanToken target → answer ≠ "__proto__" →
  addRule m (renderRule (answerPad, targetPad, (answer, target)))
  = <[answer := target]> m.
Proof.
  intros Ha1 Ha2 Ht1 Ht2 (Hane & Hatrim & Hacomma & Hacolon)
    (Htne & Httrim & Htcomma & Htcolon) Hproto.
  unfold addRule, renderRule.
  assert (Hcolon : ∀ p1 s p2, padding p1 → padding p2 →
            contains ":" s = false → contains ":" (p1 +:+ s +:+ p2) = false).
  { intros p1 s p2 Hp1 Hp2 Hs. rewrite !contains_app, Hs.
    by rewrite !(padding_free ":") by done. }
  change (?a +:+ ":" +:+ ?b) with (a +:+ String ":" b).
  rewrite split_app by (by apply Hcolon).
  rewrite split_none by (by apply Hcolon).
  rewrite !truthy_padded by done. simpl.
  rewrite !trim_padded by done.
  unfold setProperty. by destruct (String.eqb_spec answer "__proto__").
Qed.

Lemma foldl_insert_rules (m : gmap string string)
    (rules : list (string * string)) :
  foldl (λ acc rule, <[rule.1 := rule.2]> acc) m rules
  = list_to_map (reverse rules) ∪ m.
Proof.
  revert m. induction rules as [|[k t] rules IH]; intros m; simpl.
  - by rewrite (left_id_L ∅ (∪)).
  - rewrite IH, reverse_cons, list_to_map_app. simpl.
    rewrite <- (assoc_L (∪)). f_equal.
    by rewrite insert_empty, <- insert_union_singleton_l.
Qed.

Lemma foldl_addRule_rendered (m : gmap string string)
    (rules : list ((string * string) * (string * string) * (string * string))) :
  Forall (λ '(answerPad, targetPad, (answer, target)),
            padding answerPad.1 ∧ padding answerPad.2 ∧
            padding targetPad.1 ∧ padding targetPad.2 ∧
            cleanToken answer ∧ cleanToken target ∧ answer ≠ "__proto__")
    rules →
  foldl addRule m (renderRule <$> rules)
  = foldl (λ acc rule, <[rule.1 := rule.2]> acc) m (snd <$> rules).
Proof.
  intros Hall. revert m.
  induction Hall as [|[[answerPad targetPad] [answer target]] rules Hrule _ IH];
    intros m; [done|].
  destruct Hrule as (? & ? & ? & ? & ? & ? & ?).
  rewrite !fmap_cons. cbn [foldl]. by rewrite addRule_rendered, IH.
Qed.

(** X11. Round trip of a rule text: rules written as [answer:target], joined
    by commas, with any white space around answers and targets, parse to the
    mapping of the answers to their targets, a later rule for the same answer
    replacing an earlier one. Answers and targets are non-empty, trimmed and
    free of commas and colons. *)
Theorem parseConditionalRules_render
    (rules : list ((string * string) * (string * string) * (string * string))) :
  rules ≠ [] →
  Forall (λ '(answerPad, targetPad, (answer, target)),
            padding answerPad.1 ∧ padding answerPad.2 ∧
            padding targetPad.1 ∧ padding targetPad.2 ∧
            cleanToken answer ∧ cleanToken target ∧ answer ≠ "__proto__")
    rules →
  parseConditionalRules (renderRules rules)
  = Some (list_to_map (reverse (snd <$> rules))).
Proof.
  intros Hne Hall.
  assert (Hitems : Forall (λ item, contains "," item = false ∧
                                   contains ":" item = true)
                     (renderRule <$> rules)).
  { apply Forall_fmap. eapply Forall_impl; [exact Hall|].
    intros [[answerPad targetPad] [answer target]]
      (Ha1 & Ha2 & Ht1 & Ht2 & (_ & _ & Hac & _) & (_ & _ & Htc & _) & _).
    unfold renderRule. simpl. rewrite !contains_app. simpl.
    rewrite Hac, Htc, !(padding_free ",") by done.
    split; [done|]. by rewrite !orb_true_r. }
  assert (Hcolon : contains ":" (renderRules rules) = true).
  { unfold renderRules. destruct rules as [|rule rules]; [done|].
    rewrite fmap_cons in *. apply Forall_cons in Hitems as [[_ Hitem] _].
    destruct (renderRule <$> rules) as [|next rest];
      [exact Hitem|].
    change (String.concat "," (renderRule rule :: next :: rest))
      with (renderRule rule +:+ String "," (String.concat "," (next :: rest))).
    by rewrite contains_app, Hitem. }
  unfold parseConditionalRules, trimIsEmpty.
  rewrite (allWhiteSpace_contains ":" _ Hcolon eq_refl).
  assert (Htruthy : truthyStr (renderRules rules) = true).
  { apply truthyStr_true. intros Hempty. by rewrite Hempty in Hcolon. }
  rewrite Htruthy. simpl. unfold renderRules.
  rewrite (split_concat "," (renderRule <$> rules)).
  - rewrite foldl_addRule_rendered, foldl_insert_rules by done.
    rewrite (right_id_L ∅ (∪)).
    rewrite bool_decide_eq_true_2; [done|].
    destruct rules as [|rule rules] using rev_ind; [done|].
    rewrite fmap_app, reverse_app. destruct rule as [? [answer target]]. simpl.
    pose proof (proj2 (map_size_non_empty_iff
      (<[answer := target]> (list_to_map (reverse rules.*2) : gmap string string)))
      (insert_non_empty _ _ _)).
    lia.
  - by destruct rules.
  - eapply Forall_impl; [exact Hitems|]. by intros item [? _].
Qed.

Lemma foldl_addRule_none (m : gmap string string) (pairs : list string) :
  Forall (λ pair, contains ":" pair = false) pairs →
  foldl addRule m pairs = m.
Proof.
  intros Hall. revert m. induction Hall as [|pair pairs Hpair _ IH];
    intros m; [done|].
  simpl. unfold addRule at 2. by rewrite split_none, IH.
Qed.

Lemma contains_split sep c s :
  contains c s = false → Forall (λ piece, contains c piece = false) (split sep s).
Proof.
  induction s as [|c' s IH]; simpl; [by repeat constructor|].
  intros [Hc Hs]%orb_false_elim. specialize (IH Hs).
  destruct (Ascii.eqb c' sep); [by constructor|].
  destruct (split sep s) as [|piece pieces];
    [constructor; [simpl; by rewrite Hc|constructor]|].
  apply Forall_cons in IH as [Hpiece Hpieces].
  constructor; [simpl; by rewrite Hc, Hpiece|done].
Qed.

Lemma parseConditionalRules_unusable conditionalRules :
  trimIsEmpty conditionalRules = true ∨ contains ":" conditionalRules = false →
  parseConditionalRules conditionalRules = None.
Proof.
  unfold parseConditionalRules. intros [-> | Hcolon].
  - by rewrite orb_true_r.
  - destruct (negb (truthyStr conditionalRules) || trimIsEmpty conditionalRules);
      [done|].
    by rewrite foldl_addRule_none by (by apply contains_split).
Qed.

(** X10. A rule text that is empty, blank or without any colon yields no
    rules at all ([undefined]), and a result is never an empty mapping. *)
Theorem parseConditionalRules_no_rules conditionalRules :
  (trimIsEmpty conditionalRules = true →
   parseConditionalRules conditionalRules = None) ∧
  (contains ":" conditionalRules = false →
   parseConditionalRules conditionalRules = None) ∧
  (∀ rules, parseConditionalRules conditionalRules = Some rules → rules ≠ ∅).
Proof.
  split_and!.
  - intros Hblank. apply parseConditionalRules_unusable. by left.
  - intros Hcolon. apply parseConditionalRules_unusable. by right.
  - unfold parseConditionalRules. intros rules.
    destruct (negb (truthyStr conditionalRules) || trimIsEmpty conditionalRules);
      [done|].
    case_bool_decide as Hsize; [|done].
    intros [= <-] Hempty. rewrite Hempty, map_size_empty in Hsize. lia.
Qed.

(** X12. The conversion keeps the number and order of the fields; every
    converted field has a non-empty id, the authored one when there is one and
    ["field-<index>"] otherwise; [required] is carried over; and a field whose
    "use conditional logic" switch is off carries neither rules nor a default
    target, whatever was typed into those boxes. *)
Theorem convertFramerFieldsToFormPages_fields (framerFields : list FramerFormPage) :
  let fields := convertFramerFieldsToFormPages framerFields in
  length fields = length framerFields ∧
  Forall (λ field, id field ≠ "") fields ∧
  ∀ i source, framerFields !! i = Some source →
    ∃ field,
      fields !! i = Some field ∧
      id field = (if truthyOpt (Framer.id source)
                  then default "" (Framer.id source)
                  else "field-" +:+ pretty i) ∧
      required field = Framer.required source ∧
      (Framer.useConditionalLogic source = false →
       conditionalNext field = None ∧ defaultNext field = None).
Proof.
  simpl. unfold convertFramerFieldsToFormPages. split_and!.
  - apply length_imap.
  - apply Forall_forall. intros field Hin.
    apply list_elem_of_lookup in Hin as [i Hi].
    rewrite list_lookup_imap in Hi.
    destruct (framerFields !! i) as [source|]; [|done].
    injection Hi as <-. simpl.
    destruct (Framer.id source) as [given|]; simpl; [|done].
    destruct (truthyStr given) eqn:Hgiven; [|done].
    by apply truthyStr_true.
  - intros i source Hi. exists (convertField i source).
    rewrite list_lookup_imap, Hi. split_and!; try done.
    intros Hoff. unfold convertField. simpl. by rewrite Hoff.
Qed.

Lemma convertField_id_nonempty i source : id (convertField i source) ≠ "".
Proof.
  unfold convertField. simpl.
  destruct (Framer.id source) as [given|]; simpl; [|done].
  destruct (truthyStr given) eqn:Hgiven; [|done].
  by apply truthyStr_true.
Qed.

Lemma isValid_override fields field v st :
  isValid v = true →
  effectiveValue field v st = v ∧ validateCurrentField fields v st = true.
Proof.
  intros Hv.
  assert (Hv' : effectiveValue field v st = v) by (by destruct v).
  split; [done|]. unfold validateCurrentField.
  destruct (currentField fields st) as [current|]; [|done].
  destruct (required current); [|done].
  by replace (effectiveValue current v st) with v by (by destruct v).
Qed.

Lemma getNextFieldId_linear fields i field v :
  NoDup (id <$> fields) → fields !! i = Some field →
  conditionalNext field = None →
  getNextFieldId field v fields = id <$> fields !! S i.
Proof.
  intros Hnd Hi Hrules.
  rewrite getNextFieldId_spec, evaluateConditionalNext_spec, Hrules.
  unfold linearNext, getFieldIndex.
  rewrite (list_find_NoDup _ _ _ Hnd Hi). simpl.
  rewrite Nat.add_1_r. case_bool_decide as Hlt; [done|].
  symmetry. apply fmap_None, lookup_ge_None_2. lia.
Qed.

(** Walking a form without rules by "next" with valid answers: after [k]
    advances the history is the first [k + 1] ids, and the whole list once the
    last field is reached. *)
Lemma linear_walk fields (answers : list value) :
  fields ≠ [] →
  NoDup (id <$> fields) →
  Forall (λ field, id field ≠ "" ∧ conditionalNext field = None) fields →
  Forall (λ v, isValid v = true) answers →
  navigationHistory (run fields (Advance <$> answers))
  = take (S (length answers)) (id <$> fields) ∧
  (id <$> fields) !! (length answers `min` (length fields - 1))%nat
  = Some (currentFieldId (run fields (Advance <$> answers))).
Proof.
  intros Hne Hnd Hplain.
  induction answers as [|v answers IH] using rev_ind; intros Hvalid.
  - destruct fields as [|first rest]; [done|]. unfold run. simpl.
    rewrite resetIfInvalid_valid; [done|].
    unfold currentField. simpl.
    rewrite (findFieldById_first (first :: rest) first rest eq_refl).
    by eexists.
  - apply Forall_app in Hvalid as [Hvalid Hv].
    rewrite Forall_singleton in Hv.
    destruct (IH Hvalid) as [Hhistory Hcurrent]. clear IH.
    unfold run in *. rewrite fmap_app, foldl_app. cbn [foldl fmap list_fmap].
    set (st := foldl (λ st op, applyOp fields op st)
                 (resetIfInvalid fields (initialState fields))
                 (Advance <$> answers)) in *.
    rewrite length_app. cbn [length]. rewrite Nat.add_1_r.
    set (k := length answers) in *.
    apply list_lookup_fmap_Some in Hcurrent as (field & Hcur & Hfield).
    assert (Hhere : currentField fields st = Some field).
    { unfold currentField, findFieldById.
      by rewrite Hcur, (list_find_NoDup _ _ _ Hnd Hfield). }
    destruct (isValid_override fields field v st Hv) as [Hvalue Hok].
    assert (Hrules : conditionalNext field = None).
    { eapply Forall_forall in Hplain as [_ ?]; [done|].
      by eapply list_elem_of_lookup_2. }
    assert (Hstep : handleNext fields v st =
              if truthyOpt (getNextFieldId field v fields) then
                {| currentFieldId := default "" (getNextFieldId field v fields);
                   navigationHistory :=
                     navigationHistory st
                     ++ [default "" (getNextFieldId field v fields)];
                   formData := formData st;
                   error := false |}
              else st).
    { unfold handleNext. by rewrite Hhere, Hok, Hvalue. }
    unfold applyOp. rewrite Hstep. clear Hstep.
    destruct (decide (k < length fields - 1)%nat) as [Hlt|Hge].
    + rewrite Nat.min_l in Hfield by lia. rewrite (Nat.min_l (S k)) by lia.
      rewrite (getNextFieldId_linear _ _ _ v Hnd Hfield Hrules).
      destruct (lookup_lt_is_Some_2 fields (S k) ltac:(lia)) as [next Hnext].
      rewrite Hnext.
      assert (Hin : next ∈ fields) by (by eapply list_elem_of_lookup_2).
      assert (Hid : id next ≠ "").
      { by eapply Forall_forall in Hplain as [? _]. }
      apply truthyStr_true in Hid. cbn [fmap option_fmap option_map truthyOpt].
      rewrite Hid.
      rewrite resetIfInvalid_valid
        by (unfold currentField; by apply findFieldById_is_Some).
      cbn [navigationHistory currentFieldId default]. split.
      * rewrite Hhistory. symmetry. apply take_S_r.
        by rewrite list_lookup_fmap, Hnext.
      * by rewrite list_lookup_fmap, Hnext.
    + assert (Hsize : (0 < length fields)%nat).
      { destruct fields; [done|simpl; lia]. }
      rewrite Nat.min_r in Hfield by lia. rewrite (Nat.min_r (S k)) by lia.
      rewrite (getNextFieldId_linear _ _ _ v Hnd Hfield Hrules).
      rewrite (lookup_ge_None_2 fields (S (length fields - 1))) by lia.
      cbn [fmap option_fmap option_map truthyOpt].
      rewrite resetIfInvalid_valid by (by rewrite Hhere).
      split.
      * rewrite Hhistory.
        by rewrite !take_ge by (rewrite length_fmap; lia).
      * by rewrite list_lookup_fmap, Hfield, Hcur.
Qed.

(** X13. A form in which no field has the "use conditional logic" switch on
    and whose converted ids are pairwise distinct is walked in declaration
    order: pressing "next" [k] times, each time with an answer that passes
    validation, visits the first [k + 1] fields in order and nothing else, and
    stays on the last field once it is reached. *)
Theorem unconditional_forms_are_linear (framerFields : list FramerFormPage)
    (answers : list value) :
  framerFields ≠ [] →
  Forall (λ source, Framer.useConditionalLogic source = false) framerFields →
  NoDup (id <$> convertFramerFieldsToFormPages framerFields) →
  Forall (λ v, isValid v = true) answers →
  let fields := convertFramerFieldsToFormPages framerFields in
  let st := run fields (Advance <$> answers) in
  navigationHistory st = take (S (length answers)) (id <$> fields) ∧
  (id <$> fields) !! (length answers `min` (length fields - 1))%nat
  = Some (currentFieldId st).
Proof.
  intros Hne Hoff Hnd Hvalid fields st. apply linear_walk; [|done| |done].
  - unfold fields, convertFramerFieldsToFormPages.
    intros Hnil. apply (f_equal length) in Hnil.
    rewrite length_imap in Hnil. by destruct framerFields.
  - apply Forall_forall. intros field Hin.
    unfold fields, convertFramerFieldsToFormPages in Hin.
    apply list_elem_of_lookup in Hin as [i Hi].
    rewrite list_lookup_imap in Hi.
    destruct (framerFields !! i) as [source|] eqn:Hsource; [|done].
    injection Hi as <-. split; [apply convertField_id_nonempty|].
    assert (Hsw : Framer.useConditionalLogic source = false).
    { eapply Forall_forall in Hoff; [done|]. by eapply list_elem_of_lookup_2. }
    unfold convertField. simpl. by rewrite Hsw.
Qed.

(** X14. A default target without usable rules is dead: when the switch is on
    and a default target is given but the rule text is missing, blank or has
    no colon, the converted field keeps the default target and still advances
    in declaration order. *)
Theorem default_target_needs_rules (fields : list FormPage) i
    (source : FramerFormPage) target v :
  Framer.useConditionalLogic source = true →
  Framer.defaultNext source = Some target → target ≠ "" →
  match Framer.conditionalRules source with
  | Some rulesText =>
      trimIsEmpty rulesText = true ∨ contains ":" rulesText = false
  | None => True
  end →
  defaultNext (convertField i source) = Some target ∧
  getNextFieldId (convertField i source) v fields
  = linearNext fields (convertField i source).
Proof.
  intros Hon Hdefault Hne Htext.
  assert (Hrules : conditionalNext (convertField i source) = None).
  { unfold convertField. simpl. rewrite Hon. simpl.
    destruct (Framer.conditionalRules source) as [rulesText|]; simpl; [|done].
    destruct (truthyStr rulesText); [|done].
    by apply parseConditionalRules_unusable. }
  split.
  - unfold convertField. simpl. rewrite Hon, Hdefault. simpl.
    apply truthyStr_true in Hne. by rewrite Hne.
  - by rewrite getNextFieldId_spec, evaluateConditionalNext_spec, Hrules.
Qed.

End RuleText.

(** * Further properties of the submission service *)

Section OrchestratorMore.
Context `{H : Host}.

Implicit Types (a b : SubmissionAction) (d : SubmissionData) (e : Env H).

(** X15. A dispatch that lacks its configuration is rejected before any
    request is made, with the message of its kind; an email action and a
    custom action without endpoint resolve without touching the network. In
    each of these cases the world is left as it was. *)
Theorem unconfigured_action_makes_no_request a d e :
  let r := (executeAction a d e).1 in
  let e' := (executeAction a d e).2 in
  match Action.type a with
  | Webhook =>
      truthyOpt (Action.endpoint a) = false →
      r = inl "Webhook endpoint not configured" ∧ world e' = world e
  | GoogleSheets =>
      truthyOpt (Action.endpoint a) = false →
      r = inl "Google Sheets endpoint not configured" ∧ world e' = world e
  | Slack =>
      truthyOpt (Action.endpoint a) = false →
      r = inl "Slack webhook URL not configured" ∧ world e' = world e
  | Airtable =>
      truthyOpt (Action.endpoint a) = false ∨ truthyOpt (Action.apiKey a) = false →
      r = inl "Airtable configuration incomplete" ∧ world e' = world e
  | Email => r = inr Sent ∧ world e' = world e
  | Custom =>
      truthyOpt (Action.endpoint a) = false →
      r = inr Processed ∧ world e' = world e
  end.
Proof.
  simpl. unfold executeAction, bind, emit.
  destruct (Action.type a); simpl;
    unfold executeWebhookAction, executeEmailAction, executeAirtableAction,
      executeGoogleSheetsAction, executeSlackAction, executeCustomAction,
      throw, ret; try done; try (by intros ->).
  intros [-> | ->]; [done|]. by rewrite orb_true_r.
Qed.

(** X16. Without [onError = "retry"], or with [retryAttempts] absent, zero,
    one or negative, the retrying dispatch is a single dispatch: one attempt,
    no delay, the first outcome is final. *)
Theorem single_attempt_without_retry a d e :
  Action.onError a ≠ Some ErrorRetry ∨
  match Action.retryAttempts a with
  | Some k => (k ≤ 1)%Z
  | None => True
  end →
  executeActionWithRetry a d 1 e = executeAction a d e.
Proof.
  intros Hcase. rewrite executeActionWithRetry_unfold.
  destruct (executeAction a d e) as [[msg|p] e1]; [|done].
  destruct Hcase as [Hpolicy|Hattempts].
  - rewrite (bool_decide_eq_false_2 _ Hpolicy). by rewrite andb_false_r.
  - assert (Hmax : (maxAttempts a ≤ 1)%Z).
    { unfold maxAttempts. destruct (Action.retryAttempts a) as [k|]; [|done].
      destruct (Z.eqb_spec k 0); lia. }
    by destruct (Z.ltb_spec 1 (maxAttempts a)); [lia|].
Qed.

Lemma retrySchedule_total actionId attempt more :
  (0 ≤ attempt)%Z →
  foldr Z.add 0%Z (delaysOf (retrySchedule actionId attempt more))
  = (1000 * (2 ^ (attempt + Z.of_nat more) - 2 ^ attempt))%Z.
Proof.
  revert attempt. induction more as [|more IH]; intros attempt Hpos.
  - simpl. rewrite Z.add_0_r. lia.
  - change (retrySchedule actionId attempt (S more)) with
      (EvDispatch actionId :: EvDelay (2 ^ attempt * 1000)%Z
         :: retrySchedule actionId (attempt + 1) more).
    unfold delaysOf in *. cbn [omap list_omap foldr].
    rewrite IH by lia.
    replace (attempt + 1 + Z.of_nat more)%Z with (attempt + Z.of_nat (S more))%Z
      by lia.
    rewrite (Z.pow_add_r 2 attempt 1) by lia. lia.
Qed.

(** X17. The cost of giving up: an action with [onError = "retry"] and
    [retryAttempts = k >= 1] whose attempts all fail is dispatched exactly [k]
    times and holds the run for [2^k - 2] seconds of back-off in total. *)
Theorem exhausted_retries_cost a d e k msg :
  Action.retryAttempts a = Some k → (1 ≤ k)%Z →
  Action.onError a = Some ErrorRetry →
  (executeActionWithRetry a d 1 e).1 = inl msg →
  ∃ events,
    trace (executeActionWithRetry a d 1 e).2 = trace e ++ events ∧
    Z.of_nat (dispatches (Action.id a) events) = k ∧
    foldr Z.add 0%Z (delaysOf events) = (1000 * (2 ^ k - 2))%Z.
Proof.
  intros Hk Hpos Hretry Hfail.
  assert (Hmax : maxAttempts a = k).
  { unfold maxAttempts. rewrite Hk. destruct (Z.eqb_spec k 0); [lia|done]. }
  destruct (executeActionWithRetry_schedule
              (Z.to_nat (maxAttempts a - 1)) a d 1 e eq_refl)
    as (more & _ & Htrace & _ & Hall).
  rewrite (Hall msg Hfail Hretry) in Htrace.
  eexists. split; [exact Htrace|].
  rewrite retrySchedule_dispatches, retrySchedule_total by lia.
  rewrite Hmax. split; [lia|].
  replace (1 + Z.of_nat (Z.to_nat (k - 1)))%Z with k by lia. done.
Qed.

(** The condition filter writes nothing but warnings to the trace. *)
Lemma filterByCondition_trace l answers e :
  ∃ warnings,
    trace (filterByCondition l answers e).2 = trace e ++ warnings ∧
    ∀ i, EvDispatch i ∉ warnings.
Proof.
  revert answers e. induction l as [|a l IH]; intros answers e; simpl.
  - exists []. split; [by rewrite app_nil_r|]. intros i. apply not_elem_of_nil.
  - assert (Hone : ∃ warnings,
        trace (evaluateCondition (Action.condition a) answers e).2
          = trace e ++ warnings ∧ ∀ i, EvDispatch i ∉ warnings).
    { unfold evaluateCondition.
      destruct (Action.condition a) as [c|];
        [|exists []; split; [by rewrite app_nil_r|intros i; apply not_elem_of_nil]].
      destruct (negb (truthyStr c) || trimIsEmpty c);
        [exists []; split; [by rewrite app_nil_r|intros i; apply not_elem_of_nil]|].
      destruct (negb (parses c)).
      - exists [EvWarnCondition c]. split; [done|].
        intros i Hin%list_elem_of_singleton. done.
      - destruct (call c answers (world e)) as [[[truthy|] answers'] w]; simpl.
        + exists []. split; [by rewrite app_nil_r|intros i; apply not_elem_of_nil].
        + exists [EvWarnCondition c]. split; [done|].
          intros i Hin%list_elem_of_singleton. done. }
    destruct (evaluateCondition (Action.condition a) answers e)
      as [[keep answers1] e1].
    destruct Hone as (w1 & Ht1 & Hw1). simpl in Ht1.
    destruct (IH answers1 e1) as (w2 & Ht2 & Hw2).
    destruct (filterByCondition l answers1 e1) as [[rest answers2] e2].
    simpl in *. exists (w1 ++ w2). split.
    + by rewrite Ht2, Ht1, <- app_assoc.
    + intros i [?|?]%elem_of_app; [by eapply Hw1|by eapply Hw2].
Qed.

Lemma ready_are_enabled config answers e a :
  a ∈ (enabledActions config answers e).1.1 →
  a ∈ actions config ∧ Action.enabled a = true.
Proof.
  intros Ha. unfold enabledActions in Ha.
  eapply elem_of_sublist in Ha; [|apply filterByCondition_sublist].
  rewrite sortByOrder_Permutation in Ha.
  unfold enabledOnly in Ha. apply list_elem_of_In, filter_In in Ha as [Ha ?].
  split; [by apply list_elem_of_In|done].
Qed.

(** X18. Whatever the mode and the outcomes, a run dispatches only actions
    that are configured and enabled: every dispatch event it adds to the
    trace carries the id of such an action. *)
Theorem only_enabled_actions_are_dispatched config answers path e :
  ∃ events,
    trace (executeActions config answers path e).2 = trace e ++ events ∧
    ∀ i, EvDispatch i ∈ events →
         ∃ a, a ∈ actions config ∧ Action.enabled a = true ∧ Action.id a = i.
Proof.
  unfold executeActions.
  pose proof (ready_are_enabled config answers e) as Hready.
  destruct (filterByCondition_trace
              (sortByOrder (enabledOnly (actions config))) answers e)
    as (warnings & Hwarn & Hnone).
  fold (enabledActions config answers e) in Hwarn.
  destruct (enabledActions config answers e) as [[ready answers'] e1].
  simpl in Hwarn, Hready.
  assert (Hids : ∀ i, i ∈ Action.id <$> ready →
            ∃ a, a ∈ actions config ∧ Action.enabled a = true ∧ Action.id a = i).
  { intros i (a & -> & Ha)%list_elem_of_fmap.
    exists a. destruct (Hready a Ha). by split_and!. }
  destruct (executeInParallel config).
  - pose proof (parallelResults_once ready
      {| sd_formData := answers'; sd_navigationPath := path |} e1) as Hpar.
    destruct (parallelResults ready _ e1) as [parallel e2]. simpl.
    destruct Hpar as [_ Htrace].
    exists (warnings ++ (EvDispatch ∘ Action.id <$> ready)). split.
    + by rewrite Htrace, Hwarn, <- app_assoc.
    + intros i [Hin|Hin]%elem_of_app; [by apply Hnone in Hin|].
      apply list_elem_of_fmap in Hin as (a & [= ->] & Ha).
      apply Hids. by apply list_elem_of_fmap_2.
  - pose proof (sequentialLoop_accounts ready
      {| sd_formData := answers'; sd_navigationPath := path |} []
      {| successful := 0; failed := 0; skipped := 0 |} e1) as Hseq.
    destruct (sequentialLoop ready _ [] _ e1) as [[results summary] e2].
    destruct Hseq as (new & events & _ & _ & _ & _ & _ & Htrace & Hev). simpl.
    exists (warnings ++ events). split.
    + by rewrite Htrace, Hwarn, <- app_assoc.
    + intros i [Hin|Hin]%elem_of_app; [by apply Hnone in Hin|].
      by apply Hids, Hev.
Qed.

(** X19. In parallel mode the run reports one result per ready action, in
    the sorted order, and dispatches each ready action exactly once in that
    order, whatever its [onSuccess], [onError] and [retryAttempts]: nothing
    stops the run, nothing is retried, nothing is delayed. *)
Theorem parallel_run_is_one_dispatch_each config answers path e :
  executeInParallel config = true →
  let '(ready, _, e1) := enabledActions config answers e in
  let '(out, e2) := executeActions config answers path e in
  Result.action <$> Outcome.results out = Action.name <$> ready ∧
  trace e2 = trace e1 ++ (EvDispatch ∘ Action.id <$> ready).
Proof.
  intros Hpar. unfold executeActions. rewrite Hpar.
  destruct (enabledActions config answers e) as [[ready answers'] e1].
  pose proof (parallelResults_once ready
    {| sd_formData := answers'; sd_navigationPath := path |} e1) as Honce.
  by destruct (parallelResults ready _ e1) as [parallel e2].
Qed.

Lemma sequentialLoop_prefix l d results summary e :
  ∃ new,
    (sequentialLoop l d results summary e).1.1 = results ++ new ∧
    Result.action <$> new = Action.name <$> take (length new) l.
Proof.
  revert results summary e.
  induction l as [|a l IH]; intros results summary e.
  - exists []. by rewrite app_nil_r.
  - cbn [sequentialLoop].
    assert (Hgo : ∀ r s e1, Result.action r = Action.name a →
      ∃ new, (sequentialLoop l d (results ++ [r]) s e1).1.1 = results ++ new ∧
             Result.action <$> new = Action.name <$> take (length new) (a :: l)).
    { intros r s e1 Hr. destruct (IH (results ++ [r]) s e1) as (new & Hnew & Hnames).
      exists (r :: new). rewrite Hnew, <- app_assoc. split; [done|].
      cbn [length take fmap list_fmap]. rewrite Hr. f_equal. exact Hnames. }
    destruct (executeActionWithRetry a d 1 e) as [[msg|p] e1];
      case_bool_decide; try (by apply Hgo); by eexists [_].
Qed.

(** X20. In sequential mode the names of the reported results are those of
    an initial segment of the ready actions, in the sorted order: actions run
    one after the other, and a stop only cuts the tail. *)
Theorem sequential_results_are_a_prefix config answers path e :
  executeInParallel config = false →
  let ready := (enabledActions config answers e).1.1 in
  let out := (executeActions config answers path e).1 in
  Result.action <$> Outcome.results out
  = Action.name <$> take (length (Outcome.results out)) ready.
Proof.
  intros Hseq. unfold executeActions. rewrite Hseq.
  destruct (enabledActions config answers e) as [[ready answers'] e1]. simpl.
  destruct (sequentialLoop_prefix ready
    {| sd_formData := answers'; sd_navigationPath := path |} []
    {| successful := 0; failed := 0; skipped := 0 |} e1) as (new & Hnew & Hnames).
  destruct (sequentialLoop ready _ [] _ e1) as [[results summary] e2].
  simpl in *. by subst results.
Qed.

Lemma sublist_filter_mono {A} (P : A → Prop) `{!∀ x, Decision (P x)}
    (l1 l2 : list A) :
  l1 `sublist_of` l2 → filter P l1 `sublist_of` filter P l2.
Proof.
  induction 1 as [|x l1 l2 _ IH|x l1 l2 _ IH]; [done|..];
    rewrite ?filter_cons; destruct (decide (P x)); try done;
    by constructor.
Qed.

(** X21. The actions that reach execution are enabled actions of the
    configuration, in ascending [order]; among actions of equal [order] they
    keep the order in which they were declared. *)
Theorem ready_actions_are_ordered config answers e :
  let ready := (enabledActions config answers e).1.1 in
  StronglySorted byOrder ready ∧
  (∀ a, a ∈ ready → a ∈ actions config ∧ Action.enabled a = true) ∧
  ∀ k, filter (λ b, Action.order b = k) ready
       `sublist_of` filter (λ b, Action.order b = k) (actions config).
Proof.
  simpl. split_and!.
  - eapply StronglySorted_sublist;
      [apply filterByCondition_sublist|apply sortByOrder_sorted].
  - intros a. apply ready_are_enabled.
  - intros k. unfold enabledActions.
    etrans; [apply sublist_filter_mono, filterByCondition_sublist|].
    rewrite sortByOrder_stable. apply sublist_filter_mono.
    unfold enabledOnly. generalize (actions config).
    intros l. induction l as [|b l IH]; simpl; [done|].
    destruct (Action.enabled b); by constructor.
Qed.

(** X22. When no enabled action carries a condition (absent, empty or blank
    counts as none), the condition filter keeps all of them and has no effect
    at all: the ready actions are the enabled ones, sorted, and the answers
    and the environment are untouched. *)
Theorem unconditional_actions_all_run config answers e :
  Forall (λ a, Action.enabled a = true →
               match Action.condition a with
               | Some c => trimIsEmpty c = true
               | None => True
               end) (actions config) →
  enabledActions config answers e
  = (sortByOrder (enabledOnly (actions config)), answers, e).
Proof.
  intros Hall. unfold enabledActions.
  assert (Hsorted : Forall (λ a, match Action.condition a with
                                 | Some c => trimIsEmpty c = true
                                 | None => True
                                 end)
                      (sortByOrder (enabledOnly (actions config)))).
  { rewrite sortByOrder_Permutation. apply Forall_forall. intros a Ha.
    unfold enabledOnly in Ha. apply list_elem_of_In, filter_In in Ha as [Ha Hen].
    apply list_elem_of_In in Ha. eapply Forall_forall in Hall; [|done].
    simpl in Hall. by apply Hall. }
  induction Hsorted as [|a l Ha _ IH]; [done|]. simpl.
  assert (Hkeep : evaluateCondition (Action.condition a) answers e
                  = (true, answers, e)).
  { destruct (Action.condition a) as [c|]; [|done].
    by apply evaluateCondition_blank. }
  by rewrite Hkeep, IH.
Qed.

End OrchestratorMore.

(** * Properties of the submit handler *)

Section SubmitProps.
Context `{H : Host}.

Implicit Types (s : Session) (e : Env H).

(** X23. Submitting while the current field is required and either an empty
    answer is stored for it, or nothing is stored and its id names no member
    of [Object.prototype], does nothing but raise the error flag: no action
    is evaluated or dispatched (the environment is untouched) and the session
    is not marked submitted. *)
Theorem handleSubmit_blocked_on_required_empty fields submissionActions
    parallel s e field :
  currentField fields (form s) = Some field →
  required field = true →
  (formData (form s) !! id field = None ∧ inherited (id field) = None) ∨
  (∃ w, formData (form s) !! id field = Some w ∧ emptyOrAbsent w = true) →
  let '(s', e') := handleSubmit fields submissionActions parallel s e in
  e' = e ∧
  error (form s') = true ∧
  submitted s' = submitted s ∧
  isSubmitting s' = isSubmitting s ∧
  currentFieldId (form s') = currentFieldId (form s) ∧
  navigationHistory (form s') = navigationHistory (form s) ∧
  formData (form s') = formData (form s).
Proof.
  intros Hcur Hreq Hempty. apply emptyOrAbsent_readAnswer in Hempty.
  unfold handleSubmit.
  assert (Hval : validateCurrentField fields VUndefined (form s) = false).
  { unfold validateCurrentField. rewrite Hcur, Hreq.
    by apply isValid_emptyOrAbsent. }
  by rewrite Hval.
Qed.

(** X24. Once validation passes, the session ends up submitted exactly when
    no action is configured or the run of the actions reports success, and in
    error otherwise; either way it is no longer submitting and stays on the
    same field with the same history. With no action configured nothing is
    dispatched: the only event is the one-second pause. *)
Theorem handleSubmit_outcome fields submissionActions parallel s e :
  validateCurrentField fields VUndefined (form s) = true →
  let config :=
    {| actions := submissionActions; executeInParallel := parallel |} in
  let run :=
    executeActions config (formData (form s)) (navigationHistory (form s)) e in
  let '(s', e') := handleSubmit fields submissionActions parallel s e in
  isSubmitting s' = false ∧
  currentFieldId (form s') = currentFieldId (form s) ∧
  navigationHistory (form s') = navigationHistory (form s) ∧
  match submissionActions with
  | [] =>
      submitted s' = true ∧ error (form s') = false ∧
      world e' = world e ∧ trace e' = trace e ++ [EvDelay 1000]
  | _ =>
      e' = run.2 ∧
      error (form s') = negb (Outcome.success run.1) ∧
      if Outcome.success run.1
      then submitted s' = true ∧ submissionResult s' = Some run.1
      else submitted s' = submitted s ∧ submissionResult s' = submissionResult s
  end.
Proof.
  intros Hval. simpl. unfold handleSubmit. rewrite Hval. simpl.
  destruct submissionActions as [|a l]; [done|].
  rewrite bool_decide_eq_true_2 by (simpl; lia).
  destruct (executeActions _ (formData (form s)) (navigationHistory (form s)) e)
    as [result e1]. simpl.
  by destruct (Outcome.success result).
Qed.

(** X25. A session whose configured actions are all disabled can never be
    submitted: with at least one action configured and none enabled, a valid
    submit ends in error, the session is not marked submitted, and no
    condition is evaluated and nothing is dispatched. *)
Theorem handleSubmit_all_disabled fields submissionActions parallel s e :
  validateCurrentField fields VUndefined (form s) = true →
  submissionActions ≠ [] →
  Forall (λ a, Action.enabled a = false) submissionActions →
  let '(s', e') := handleSubmit fields submissionActions parallel s e in
  e' = e ∧ error (form s') = true ∧ submitted s' = submitted s ∧
  formData (form s') = formData (form s).
Proof.
  intros Hval Hne Hoff. unfold handleSubmit. rewrite Hval. simpl.
  rewrite bool_decide_eq_true_2
    by (destruct submissionActions; [done|simpl; lia]).
  assert (Hnone : enabledOnly submissionActions = []).
  { clear Hne. unfold enabledOnly. induction Hoff as [|a l Ha _ IH]; [done|].
    simpl. by rewrite Ha. }
  unfold executeActions, enabledActions. simpl. rewrite Hnone. simpl.
  by destruct parallel.
Qed.

End SubmitProps.

(** * Properties of the auto-advance bookkeeping *)

Section AutoAdvance.

(** X26. After the user goes back, nothing auto-advances until the user
    interacts again: if the back navigation happened at a positive time [t],
    no earlier than the last recorded interaction, then at every later moment
    [shouldAllowAutoAdvance] is false for every field, and the timer callback
    of [triggerAutoAdvance] leaves the form state alone. *)
Theorem back_navigation_blocks_auto_advance (r : Refs) (t now1 now2 : Z)
    fields hideNextButton fieldId v st :
  (0 < t)%Z →
  match lastUserInteraction r with
  | Some (_, timestamp) => (timestamp ≤ t)%Z
  | None => True
  end →
  (t ≤ now1)%Z → (now1 ≤ now2)%Z →
  shouldAllowAutoAdvance (noteBack t r) fieldId now1 now2 = false ∧
  autoAdvance fields hideNextButton fieldId v (noteBack t r) now1 now2 st = st.
Proof.
  intros Hpos Hlast Hnow1 Hnow2.
  assert (Hblocked : shouldAllowAutoAdvance (noteBack t r) fieldId now1 now2
                     = false).
  { unfold shouldAllowAutoAdvance, noteBack. simpl.
    destruct (Z.eqb_spec t 0); [lia|]. simpl.
    destruct (Z.ltb_spec (now1 - t) 500); [done|].
    destruct (lastUserInteraction r) as [[interacted timestamp]|]; [|done].
    destruct (negb (String.eqb interacted fieldId)); [done|].
    destruct (Z.ltb_spec (now2 - timestamp) 100); [lia|done]. }
  split; [done|]. unfold autoAdvance. by rewrite Hblocked, andb_false_r.
Qed.

(** X27. Right after a user interaction the timer callback of
    [triggerAutoAdvance] advances, exactly as [handleNext] does with the value
    it was given, when the field hides its "next" button, is the field that
    was interacted with, and less than 100 ms have passed; in every other case
    it leaves the form state alone. An earlier back navigation no longer
    counts. *)
Theorem interaction_opens_auto_advance_window (r : Refs) (t now1 now2 : Z)
    fields hideNextButton interacted fieldId v st :
  autoAdvance fields hideNextButton fieldId v
    (noteUserInteraction interacted t r) now1 now2 st
  = if hideNextButton && bool_decide (interacted = fieldId)
       && (now2 - t <? 100)%Z
    then handleNext fields v st
    else st.
Proof.
  unfold autoAdvance, shouldAllowAutoAdvance, noteUserInteraction. simpl.
  destruct (String.eqb_spec interacted fieldId); simpl.
  - rewrite bool_decide_eq_true_2 by done. by rewrite andb_true_r.
  - rewrite bool_decide_eq_false_2 by done. by rewrite andb_false_r.
Qed.

End AutoAdvance.

(** * Properties of the age selector *)

Section AgeSelectorProps.

Import AgeSelector.

Lemma wrap_cycles (minAge maxAge newAge : Z) :
  (minAge ≤ maxAge)%Z →
  ∃ wrapped,
    wrap minAge maxAge newAge = Num wrapped ∧
    (minAge ≤ wrapped ≤ maxAge)%Z ∧
    (maxAge - minAge + 1 | wrapped - newAge)%Z.
Proof.
  intros Hrange. unfold wrap.
  set (range := (maxAge - minAge + 1)%Z).
  assert (Hpos : (0 < range)%Z) by (unfold range; lia).
  destruct (Z.eqb_spec range 0); [lia|].
  destruct (Z.ltb_spec maxAge newAge) as [Habove|Hle].
  - eexists. split; [done|].
    rewrite Z.rem_mod_nonneg by lia.
    pose proof (Z.mod_pos_bound (newAge - minAge) range Hpos).
    split_and!; [lia|unfold range in *; lia|].
    exists (- ((newAge - minAge) / range))%Z.
    pose proof (Z.div_mod (newAge - minAge) range ltac:(lia)). lia.
  - destruct (Z.ltb_spec newAge minAge) as [Hbelow|Hge].
    + eexists. split; [done|].
      rewrite Z.rem_mod_nonneg by lia.
      pose proof (Z.mod_pos_bound (minAge - newAge - 1) range Hpos).
      split_and!; [unfold range in *; lia|lia|].
      exists (1 + (minAge - newAge - 1) / range)%Z.
      pose proof (Z.div_mod (minAge - newAge - 1) range ltac:(lia)).
      unfold range in *. lia.
    + exists newAge. split_and!; [done|lia|lia|].
      exists 0%Z. lia.
Qed.

(** X28. With [minAge <= maxAge], the wrap-around of a drag always lands on
    an age of the range, which differs from the unwrapped age by a whole
    number of cycles, and an age already in the range is left alone. *)
Theorem wrap_stays_in_range (minAge maxAge newAge : Z) :
  (minAge ≤ maxAge)%Z →
  ∃ wrapped,
    wrap minAge maxAge newAge = Num wrapped ∧
    (minAge ≤ wrapped ≤ maxAge)%Z ∧
    (maxAge - minAge + 1 | wrapped - newAge)%Z ∧
    ((minAge ≤ newAge ≤ maxAge)%Z → wrapped = newAge).
Proof.
  intros Hrange.
  destruct (wrap_cycles minAge maxAge newAge Hrange)
    as (wrapped & Hwrap & Hin & Hcycles).
  exists wrapped. do 3 (split; [done|]).
  intros [Hlo Hhi]. revert Hwrap. unfold wrap.
  destruct (Z.eqb_spec (maxAge - minAge + 1) 0); [lia|].
  destruct (Z.ltb_spec maxAge newAge); [lia|].
  destruct (Z.ltb_spec newAge minAge); [lia|].
  by intros [= <-].
Qed.

(** X29. With [minAge <= maxAge], a drag reports a new age only if it differs
    from the current value, and then the reported age lies in the range and
    is the moved age up to whole cycles; when nothing is reported the movement
    was a whole number of cycles. [NaN] is never reported. *)
Theorem handleDragEnd_reports_ages_in_range
    (value minAge maxAge ticksMoved momentumTicks : Z) :
  (minAge ≤ maxAge)%Z →
  match handleDragEnd value minAge maxAge ticksMoved momentumTicks with
  | Some (Num reported) =>
      reported ≠ value ∧ (minAge ≤ reported ≤ maxAge)%Z ∧
      (maxAge - minAge + 1 | reported - (value + ticksMoved + momentumTicks))%Z
  | Some NaN => False
  | None => (maxAge - minAge + 1 | ticksMoved + momentumTicks)%Z
  end.
Proof.
  intros Hrange. unfold handleDragEnd.
  destruct (wrap_cycles minAge maxAge
              (value + ticksMoved + momentumTicks) Hrange)
    as (wrapped & -> & Hin & Hcycles).
  destruct (Z.eqb_spec wrapped value) as [->|Hne]; [|done].
  destruct Hcycles as [q Hq]. exists (- q)%Z. lia.
Qed.

Lemma bind_singleton_fmap {A B} (f : A → B) (l : list A) :
  (x ← l; [f x]) = f <$> l.
Proof. induction l as [|x l IH]; [done|]. simpl. by f_equal. Qed.

Lemma generateTicks_cycles (minAge maxAge : Z) :
  generateTicks minAge maxAge =
  let range := (maxAge - minAge + 1)%Z in
  let cycle k := (λ i, {| age := i; cycleOffset := k * range; actualAge := i |})
                   <$> seqZ minAge range in
  cycle (-1)%Z ++ cycle 0%Z ++ cycle 1%Z.
Proof.
  unfold generateTicks. simpl. rewrite !bind_singleton_fmap.
  by rewrite app_nil_r.
Qed.

(** X30. With [minAge <= maxAge] the ruler has three ticks per age, and for
    every age of the range the tick under the pointer (the one at
    [currentAgeIndex]) is the tick of that age in the middle cycle; it is the
    only tick drawn as current. *)
Theorem pointer_tick_is_current_age (minAge maxAge current : Z) :
  (minAge ≤ current ≤ maxAge)%Z →
  let ticks := generateTicks minAge maxAge in
  let pointer := Z.to_nat (currentAgeIndex minAge maxAge current) in
  Z.of_nat (length ticks) = (3 * (maxAge - minAge + 1))%Z ∧
  ticks !! pointer
    = Some {| age := current; cycleOffset := 0; actualAge := current |} ∧
  ∀ i tick, ticks !! i = Some tick → isCurrentAge current tick = true →
            i = pointer.
Proof.
  intros Hin. simpl. rewrite generateTicks_cycles. cbv zeta.
  unfold currentAgeIndex.
  set (range := (maxAge - minAge + 1)%Z).
  assert (Hpos : (0 < range)%Z) by (unfold range; lia).
  assert (Hlen : ∀ k, length ((λ i, {| age := i; cycleOffset := k * range;
                                       actualAge := i |}) <$> seqZ minAge range)
                      = Z.to_nat range).
  { intros k. by rewrite length_fmap, length_seqZ. }
  split_and!.
  - rewrite !length_app, !Hlen. lia.
  - rewrite lookup_app_r by (rewrite Hlen; lia).
    rewrite lookup_app_l by (rewrite !Hlen; lia).
    rewrite Hlen, list_lookup_fmap, lookup_seqZ_lt by lia. simpl.
    do 2 f_equal; lia.
  - intros i tick Hi Hcur. unfold isCurrentAge in Hcur.
    apply andb_prop in Hcur as [Hage%Z.eqb_eq Hoff%Z.eqb_eq].
    apply lookup_app_Some in Hi as [Hi|[Hge Hi]].
    { apply list_lookup_fmap_Some in Hi as (j & -> & _). simpl in Hoff. lia. }
    rewrite Hlen in Hge, Hi.
    apply lookup_app_Some in Hi as [Hi|[Hge' Hi]].
    + apply list_lookup_fmap_Some in Hi as (j & -> & Hj). simpl in Hage.
      apply lookup_seqZ in Hj as [-> Hj]. lia.
    + apply list_lookup_fmap_Some in Hi as (j & -> & _). simpl in Hoff. lia.
Qed.

End AgeSelectorProps.

(** * Further scenarios *)

Lemma current_field_always_resolves_witness :
  quiz ≠ [] ∧
  is_Some (currentField quiz
             (run quiz [SubmitAnswer "Q1" (VStr "Yes"); Advance VUndefined;
                        Retreat])).
Proof.
  split; [discriminate|].
  exact (proj1 (current_field_always_resolves quiz
    [SubmitAnswer "Q1" (VStr "Yes"); Advance VUndefined; Retreat]
    ltac:(discriminate))).
Defined.

Lemma navigation_keeps_answers_witness :
  let ops := [SubmitAnswer "Q1" (VStr "Yes")] in
  let moves := [Advance VUndefined; Retreat; Advance (VStr "No")] in
  Forall (λ op, match op with Advance _ | Retreat => True | _ => False end)
    moves ∧
  formData (run quiz (ops ++ moves)) = formData (run quiz ops).
Proof.
  intros ops moves.
  assert (Hmoves : Forall (λ op, match op with
                                 | Advance _ | Retreat => True
                                 | _ => False end) moves)
    by (repeat constructor).
  split; [exact Hmoves|]. exact (navigation_keeps_answers quiz ops moves Hmoves).
Defined.

Lemma advance_then_retreat_witness :
  let ops := [SubmitAnswer "Q1" (VStr "Yes")] in
  navigationHistory (handleNext quiz VUndefined (run quiz ops))
    ≠ navigationHistory (run quiz ops) ∧
  navigationHistory (handlePrevious (handleNext quiz VUndefined (run quiz ops)))
    = navigationHistory (run quiz ops).
Proof.
  intros ops.
  assert (Hmoved : navigationHistory (handleNext quiz VUndefined (run quiz ops))
                   ≠ navigationHistory (run quiz ops)).
  { intros Heq. vm_compute in Heq. discriminate. }
  split; [exact Hmoved|].
  exact (proj1 (advance_then_retreat quiz ops VUndefined Hmoved)).
Defined.

Lemma linear_advance_witness :
  let st := run quiz [SubmitAnswer "Q1" (VStr "No"); Advance VUndefined] in
  NoDup (id <$> quiz) ∧
  quiz !! 1%nat = Some Q2 ∧ quiz !! 2%nat = Some Q3 ∧
  currentFieldId st = id Q2 ∧ conditionalNext Q2 = None ∧
  validateCurrentField quiz VUndefined st = true ∧ id Q3 ≠ "" ∧
  currentFieldId (handleNext quiz VUndefined st) = "Q3".
Proof.
  intros st.
  assert (Hnd : NoDup (id <$> quiz)).
  { apply (bool_decide_unpack _). vm_compute. exact I. }
  assert (Hcur : currentFieldId st = id Q2) by (vm_compute; reflexivity).
  assert (Hval : validateCurrentField quiz VUndefined st = true)
    by (vm_compute; reflexivity).
  split_and!; [exact Hnd | reflexivity | reflexivity | exact Hcur | reflexivity
              | exact Hval | discriminate |].
  exact (proj1 (linear_advance quiz st VUndefined 1 Q2 Q3 Hnd eq_refl eq_refl
                  Hcur eq_refl Hval ltac:(discriminate))).
Defined.

Lemma isLastStep_agrees_with_handleNext_witness :
  let st := run quiz [SubmitAnswer "Q1" (VStr "Yes")] in
  isLastStep quiz st = false ∧
  validateCurrentField quiz VUndefined st = true ∧
  Forall (λ field, id field ≠ "") quiz ∧
  ∃ next,
    navigationHistory (handleNext quiz VUndefined st)
      = navigationHistory st ++ [next] ∧
    currentFieldId (handleNext quiz VUndefined st) = next.
Proof.
  intros st.
  assert (Hlast : isLastStep quiz st = false) by (vm_compute; reflexivity).
  assert (Hval : validateCurrentField quiz VUndefined st = true)
    by (vm_compute; reflexivity).
  assert (Hids : Forall (λ field, id field ≠ "") quiz)
    by (repeat constructor; discriminate).
  split_and!; [exact Hlast | exact Hval | exact Hids |].
  exact (proj2 (isLastStep_agrees_with_handleNext quiz st) Hlast Hval Hids).
Defined.

Lemma checkbox_toggle_flips_witness :
  let st := handleInputChange "Q2" (VArr ["a"]) (initialState quiz) in
  ("b" ∉ ["a"]) ∧
  readAnswer (formData (handleCheckboxToggle "Q2" "b"
                          (handleCheckboxToggle "Q2" "b" st))) "Q2"
  = VArr ["a"].
Proof.
  intros st.
  assert (Hnot : "b" ∉ ["a"]).
  { intros Hin%list_elem_of_singleton. discriminate. }
  split; [exact Hnot|].
  exact (proj2 (proj2 (checkbox_toggle_flips "Q2" "b" st)) Hnot).
Defined.

Lemma unchecking_last_option_blocks_required_witness :
  let box := {| id := "B"; type := checkbox; required := true;
                conditionalNext := None; defaultNext := None |} in
  let st := handleInputChange "B" (VArr ["x"]) (initialState [box; Q2]) in
  currentField [box; Q2] st = Some box ∧ required box = true ∧
  readAnswer (formData st) (id box) = VArr ["x"] ∧
  error (handleNext [box; Q2] VUndefined (handleCheckboxToggle "B" "x" st))
  = true.
Proof.
  intros box st.
  assert (Hcur : currentField [box; Q2] st = Some box)
    by (vm_compute; reflexivity).
  assert (Hsel : readAnswer (formData st) (id box) = VArr ["x"])
    by (vm_compute; reflexivity).
  split_and!; [exact Hcur | reflexivity | exact Hsel |].
  destruct (unchecking_last_option_blocks_required [box; Q2] st box "x"
              Hcur eq_refl Hsel) as (_ & _ & _ & Herr).
  exact Herr.
Defined.

Lemma findFieldById_first_match_witness :
  findFieldById (quiz ++ [Q2]) "Q2" = Some Q2 ∧
  ∃ i, getFieldIndex (quiz ++ [Q2]) "Q2" = Some i ∧ (quiz ++ [Q2]) !! i = Some Q2.
Proof.
  assert (Hfound : findFieldById (quiz ++ [Q2]) "Q2" = Some Q2)
    by (vm_compute; reflexivity).
  split; [exact Hfound|].
  pose proof (findFieldById_first_match (quiz ++ [Q2]) "Q2") as W.
  rewrite Hfound in W. destruct W as (i & Hindex & Hfield & _).
  exists i. split; [exact Hindex | exact Hfield].
Defined.

Lemma parseConditionalRules_no_rules_witness :
  JsString.contains ":" "Yes,No" = false ∧
  parseConditionalRules "Yes,No" = None.
Proof.
  split; [reflexivity|].
  destruct (parseConditionalRules_no_rules "Yes,No") as (_ & Hcolon & _).
  apply Hcolon. reflexivity.
Defined.

Lemma parseConditionalRules_render_witness :
  let rules := [((" ", ""), ("", " "), ("Yes", "q4"));
                (("", ""), (" ", ""), ("No", "q3"))] in
  renderRules rules = " Yes:q4 ,No: q3" ∧
  parseConditionalRules " Yes:q4 ,No: q3"
  = Some (list_to_map [("No", "q3"); ("Yes", "q4")]).
Proof.
  intros rules. split; [reflexivity|].
  change " Yes:q4 ,No: q3" with (renderRules rules).
  apply (parseConditionalRules_render rules); [discriminate|].
  repeat constructor; try reflexivity; discriminate.
Defined.

Lemma convertFramerFieldsToFormPages_fields_witness :
  let source := {| Framer.id := None; Framer.type := None;
                   Framer.required := true;
                   Framer.useConditionalLogic := false;
                   Framer.conditionalRules := Some "Yes:q2";
                   Framer.defaultNext := Some "q9" |} in
  [source; source] !! 1%nat = Some source ∧
  Framer.useConditionalLogic source = false ∧
  ∃ field,
    convertFramerFieldsToFormPages [source; source] !! 1%nat = Some field ∧
    id field = "field-1" ∧ conditionalNext field = None ∧
    defaultNext field = None.
Proof.
  intros source. split; [reflexivity|]. split; [reflexivity|].
  destruct (convertFramerFieldsToFormPages_fields [source; source])
    as (_ & _ & Heach).
  destruct (Heach 1%nat source eq_refl) as (field & Hfield & Hid & _ & Hoff).
  exists field. destruct (Hoff eq_refl) as [Hrules Hdefault].
  split_and!; [exact Hfield | exact Hid | exact Hrules | exact Hdefault].
Defined.

Lemma unconditional_forms_are_linear_witness :
  let source := {| Framer.id := Some "a"; Framer.type := Some radio;
                   Framer.required := true;
                   Framer.useConditionalLogic := false;
                   Framer.conditionalRules := Some "Yes:c";
                   Framer.defaultNext := Some "c" |} in
  let other i := {| Framer.id := Some i; Framer.type := None;
                    Framer.required := false;
                    Framer.useConditionalLogic := false;
                    Framer.conditionalRules := None;
                    Framer.defaultNext := None |} in
  let authored := [source; other "b"; other "c"] in
  let fields := convertFramerFieldsToFormPages authored in
  Forall (λ f, Framer.useConditionalLogic f = false) authored ∧
  NoDup (id <$> fields) ∧
  navigationHistory (run fields [Advance (VStr "Yes")]) = ["a"; "b"] ∧
  currentFieldId (run fields [Advance (VStr "Yes")]) = "b" ∧
  navigationHistory
    (run fields [Advance (VStr "Yes"); Advance (VNum 3); Advance (VStr "z")])
  = ["a"; "b"; "c"].
Proof.
  intros source other authored fields.
  assert (Hoff : Forall (λ f, Framer.useConditionalLogic f = false) authored)
    by (repeat constructor).
  assert (Hnd : NoDup (id <$> fields))
    by (apply (bool_decide_unpack _); vm_compute; reflexivity).
  split_and!; [exact Hoff | exact Hnd | ..].
  - apply (unconditional_forms_are_linear authored [VStr "Yes"]);
      [discriminate | exact Hoff | exact Hnd | repeat constructor].
  - destruct (unconditional_forms_are_linear authored [VStr "Yes"]) as [_ Hcur];
      [discriminate | exact Hoff | exact Hnd | repeat constructor |].
    apply (inj Some). symmetry. exact Hcur.
  - apply (unconditional_forms_are_linear authored
             [VStr "Yes"; VNum 3; VStr "z"]);
      [discriminate | exact Hoff | exact Hnd | repeat constructor].
Defined.

Lemma default_target_needs_rules_witness :
  let source := {| Framer.id := Some "Q1"; Framer.type := Some radio;
                   Framer.required := false;
                   Framer.useConditionalLogic := true;
                   Framer.conditionalRules := Some "Yes";
                   Framer.defaultNext := Some "Q3" |} in
  Framer.useConditionalLogic source = true ∧
  Framer.defaultNext source = Some "Q3" ∧ "Q3" ≠ "" ∧
  JsString.contains ":" "Yes" = false ∧
  defaultNext (convertField 0 source) = Some "Q3" ∧
  getNextFieldId (convertField 0 source) (VStr "Yes") quiz = Some "Q2".
Proof.
  intros source.
  split_and!; [reflexivity | reflexivity | discriminate | reflexivity | ..];
    destruct (default_target_needs_rules quiz 0 source "Q3" (VStr "Yes")
                eq_refl eq_refl ltac:(discriminate) (or_intror eq_refl))
      as [Hdefault Hnext].
  - exact Hdefault.
  - rewrite Hnext. vm_compute. reflexivity.
Defined.

Lemma unconfigured_action_makes_no_request_witness :
  let a := {| Action.id := "w"; Action.name := "w"; Action.type := Webhook;
              Action.enabled := true; Action.order := 1;
              Action.endpoint := Some ""; Action.apiKey := None;
              Action.condition := None; Action.onSuccess := None;
              Action.onError := None; Action.retryAttempts := None |} in
  let e := scriptedEnv 0 [inr "{}"] in
  truthyOpt (Action.endpoint a) = false ∧
  (executeAction a noData e).1 = inl "Webhook endpoint not configured" ∧
  world (executeAction a noData e).2 = world e.
Proof.
  intros a e. split; [reflexivity|].
  exact (unconfigured_action_makes_no_request a noData e eq_refl).
Defined.

Lemma single_attempt_without_retry_witness :
  let a := hook "a" 1 None None (Some ErrorRetry) None in
  let e := scriptedEnv 0 [inl "down"; inr "{}"] in
  match Action.retryAttempts a with
  | Some k => (k ≤ 1)%Z
  | None => True
  end ∧
  executeActionWithRetry a noData 1 e = executeAction a noData e.
Proof.
  intros a e. split; [exact I|].
  exact (single_attempt_without_retry a noData e (or_intror I)).
Defined.

Lemma exhausted_retries_cost_witness :
  let a := hook "a" 1 None None (Some ErrorRetry) (Some 3%Z) in
  let e := scriptedEnv 0 [inl "down"; inl "down"; inl "gone"; inr "{}"] in
  Action.retryAttempts a = Some 3%Z ∧ (1 ≤ 3)%Z ∧
  Action.onError a = Some ErrorRetry ∧
  (executeActionWithRetry a noData 1 e).1 = inl "gone" ∧
  ∃ events,
    trace (executeActionWithRetry a noData 1 e).2 = trace e ++ events ∧
    Z.of_nat (dispatches (Action.id a) events) = 3%Z ∧
    foldr Z.add 0%Z (delaysOf events) = (1000 * (2 ^ 3 - 2))%Z.
Proof.
  intros a e.
  assert (Hfail : (executeActionWithRetry a noData 1 e).1 = inl "gone")
    by (vm_compute; reflexivity).
  split_and!; [reflexivity | lia | reflexivity | exact Hfail |].
  exact (exhausted_retries_cost a noData e 3 "gone" eq_refl ltac:(lia) eq_refl
           Hfail).
Defined.

Lemma only_enabled_actions_are_dispatched_witness :
  let off := {| Action.id := "off"; Action.name := "off"; Action.type := Email;
                Action.enabled := false; Action.order := 1;
                Action.endpoint := None; Action.apiKey := None;
                Action.condition := None; Action.onSuccess := None;
                Action.onError := None; Action.retryAttempts := None |} in
  let config := {| actions := [off; hook "on" 2 None None None None];
                   executeInParallel := false |} in
  let e := scriptedEnv 0 [inr "{}"] in
  trace (executeActions config ∅ [] e).2 = trace e ++ [EvDispatch "on"] ∧
  ∃ a, a ∈ actions config ∧ Action.enabled a = true ∧ Action.id a = "on".
Proof.
  intros off config e.
  assert (Htrace : trace (executeActions config ∅ [] e).2
                   = trace e ++ [EvDispatch "on"]) by (vm_compute; reflexivity).
  split; [exact Htrace|].
  destruct (only_enabled_actions_are_dispatched config ∅ [] e)
    as (events & Hevents & Honly).
  apply Honly. rewrite Htrace in Hevents. apply app_inv_head in Hevents.
  rewrite <- Hevents. apply list_elem_of_singleton. reflexivity.
Defined.

Lemma parallel_run_is_one_dispatch_each_witness :
  let A := hook "A" 1 None (Some SuccessStop) (Some ErrorRetry) (Some 3%Z) in
  let B := hook "B" 2 None None None None in
  let config := {| actions := [B; A]; executeInParallel := true |} in
  let e := scriptedEnv 0 [inl "down"; inr "{}"] in
  executeInParallel config = true ∧
  (enabledActions config ∅ e).1.1 = [A; B] ∧
  Result.action <$> Outcome.results (executeActions config ∅ [] e).1
    = ["A"; "B"] ∧
  trace (executeActions config ∅ [] e).2 = [EvDispatch "A"; EvDispatch "B"].
Proof.
  intros A B config e.
  assert (Hready : enabledActions config ∅ e = ([A; B], ∅, e))
    by (vm_compute; reflexivity).
  pose proof (parallel_run_is_one_dispatch_each config ∅ [] e eq_refl) as W.
  rewrite Hready in W.
  destruct (executeActions config ∅ [] e) as [out e2].
  destruct W as [Hnames Htrace].
  split_and!; [reflexivity | by rewrite Hready | exact Hnames | exact Htrace].
Defined.

Lemma sequential_results_are_a_prefix_witness :
  let A := hook "A" 1 None (Some SuccessStop) None None in
  let B := hook "B" 2 None None None None in
  let config := {| actions := [B; A]; executeInParallel := false |} in
  let e := scriptedEnv 0 [inr "{}"; inr "{}"] in
  executeInParallel config = false ∧
  Result.action <$> Outcome.results (executeActions config ∅ [] e).1
  = Action.name <$>
      take (length (Outcome.results (executeActions config ∅ [] e).1))
        (enabledActions config ∅ e).1.1.
Proof.
  intros A B config e. split; [reflexivity|].
  exact (sequential_results_are_a_prefix config ∅ [] e eq_refl).
Defined.

Lemma ready_actions_are_ordered_witness :
  let A := hook "A" 2 None None None None in
  let B := hook "B" 1 (Some "false") None None None in
  let C := hook "C" 2 None None None None in
  let config := {| actions := [A; B; C]; executeInParallel := false |} in
  let e := scriptedEnv 0 [] in
  (enabledActions config ∅ e).1.1 = [A; C] ∧
  StronglySorted byOrder (enabledActions config ∅ e).1.1.
Proof.
  intros A B C config e. split; [vm_compute; reflexivity|].
  exact (proj1 (ready_actions_are_ordered config ∅ e)).
Defined.

Lemma unconditional_actions_all_run_witness :
  let A := hook "A" 2 None None None None in
  let B := hook "B" 1 (Some "  ") None None None in
  let config := {| actions := [A; B]; executeInParallel := false |} in
  let e := scriptedEnv 0 [] in
  Forall (λ a, Action.enabled a = true →
               match Action.condition a with
               | Some c => trimIsEmpty c = true
               | None => True
               end) (actions config) ∧
  enabledActions config ∅ e = ([B; A], ∅, e).
Proof.
  intros A B config e.
  assert (Hall : Forall (λ a, Action.enabled a = true →
                   match Action.condition a with
                   | Some c => trimIsEmpty c = true
                   | None => True
                   end) (actions config)).
  { repeat constructor. }
  split; [exact Hall|].
  exact (unconditional_actions_all_run config ∅ e Hall).
Defined.

Lemma handleSubmit_blocked_on_required_empty_witness :
  let s := {| form := initialState quiz; submitted := false;
              isSubmitting := false; submissionResult := None |} in
  let e := scriptedEnv 0 [inr "{}"] in
  currentField quiz (form s) = Some Q1 ∧ required Q1 = true ∧
  formData (form s) !! id Q1 = None ∧ inherited (id Q1) = None ∧
  (handleSubmit quiz [hook "A" 1 None None None None] false s e).2 = e ∧
  error (form (handleSubmit quiz [hook "A" 1 None None None None] false s e).1)
  = true.
Proof.
  intros s e.
  assert (Hcur : currentField quiz (form s) = Some Q1)
    by (vm_compute; reflexivity).
  assert (Hnone : formData (form s) !! id Q1 = None)
    by (vm_compute; reflexivity).
  assert (Hown : inherited (id Q1) = None) by (vm_compute; reflexivity).
  pose proof (handleSubmit_blocked_on_required_empty quiz
                [hook "A" 1 None None None None] false s e Q1 Hcur eq_refl
                (or_introl (conj Hnone Hown))) as W.
  destruct (handleSubmit quiz [hook "A" 1 None None None None] false s e)
    as [s' e'].
  destruct W as (He & Herr & _).
  split_and!;
    [exact Hcur | reflexivity | exact Hnone | exact Hown | exact He | exact Herr].
Defined.

Lemma handleSubmit_outcome_witness :
  let st := run quiz [SubmitAnswer "Q1" (VStr "Yes"); Advance VUndefined] in
  let s := {| form := st; submitted := false; isSubmitting := false;
              submissionResult := None |} in
  let e := scriptedEnv 0 [] in
  validateCurrentField quiz VUndefined (form s) = true ∧
  submitted (handleSubmit quiz [] false s e).1 = true ∧
  trace (handleSubmit quiz [] false s e).2 = [EvDelay 1000].
Proof.
  intros st s e.
  assert (Hval : validateCurrentField quiz VUndefined (form s) = true)
    by (vm_compute; reflexivity).
  pose proof (handleSubmit_outcome quiz [] false s e Hval) as W.
  simpl in W. destruct (handleSubmit quiz [] false s e) as [s' e'].
  destruct W as (_ & _ & _ & Hsub & _ & _ & Htrace).
  split_and!; [exact Hval | exact Hsub | exact Htrace].
Defined.

Lemma handleSubmit_all_disabled_witness :
  let off := {| Action.id := "off"; Action.name := "off"; Action.type := Email;
                Action.enabled := false; Action.order := 1;
                Action.endpoint := None; Action.apiKey := None;
                Action.condition := None; Action.onSuccess := None;
                Action.onError := None; Action.retryAttempts := None |} in
  let st := run quiz [SubmitAnswer "Q1" (VStr "Yes"); Advance VUndefined] in
  let s := {| form := st; submitted := false; isSubmitting := false;
              submissionResult := None |} in
  let e := scriptedEnv 0 [] in
  validateCurrentField quiz VUndefined (form s) = true ∧
  [off] ≠ [] ∧ Forall (λ a, Action.enabled a = false) [off] ∧
  error (form (handleSubmit quiz [off] false s e).1) = true ∧
  submitted (handleSubmit quiz [off] false s e).1 = false.
Proof.
  intros off st s e.
  assert (Hval : validateCurrentField quiz VUndefined (form s) = true)
    by (vm_compute; reflexivity).
  assert (Hoff : Forall (λ a, Action.enabled a = false) [off])
    by (repeat constructor).
  pose proof (handleSubmit_all_disabled quiz [off] false s e Hval
                ltac:(discriminate) Hoff) as W.
  destruct (handleSubmit quiz [off] false s e) as [s' e'].
  destruct W as (_ & Herr & Hsub & _).
  split_and!; [exact Hval | discriminate | exact Hoff | exact Herr | exact Hsub].
Defined.

Lemma back_navigation_blocks_auto_advance_witness :
  let r := noteUserInteraction "Q1" 1000 initialRefs in
  (0 < 1050)%Z ∧ (1000 ≤ 1050)%Z ∧ (1050 ≤ 1060)%Z ∧ (1060 ≤ 1060)%Z ∧
  shouldAllowAutoAdvance (noteBack 1050 r) "Q1" 1060 1060 = false.
Proof.
  intros r. split_and!; [lia | lia | lia | lia |].
  refine (proj1 (back_navigation_blocks_auto_advance r 1050 1060 1060
                   quiz true "Q1" (VStr "Yes") (initialState quiz)
                   ltac:(lia) _ ltac:(lia) ltac:(lia))).
  simpl. lia.
Defined.

Lemma wrap_stays_in_range_witness :
  (0 ≤ 100)%Z ∧
  ∃ wrapped,
    AgeSelector.wrap 0 100 105 = AgeSelector.Num wrapped ∧
    (0 ≤ wrapped ≤ 100)%Z.
Proof.
  split; [lia|].
  destruct (wrap_stays_in_range 0 100 105 ltac:(lia))
    as (wrapped & Hwrap & Hin & _).
  exists wrapped. split; [exact Hwrap | exact Hin].
Defined.

Lemma handleDragEnd_reports_ages_in_range_witness :
  (18 ≤ 65)%Z ∧
  AgeSelector.handleDragEnd 64 18 65 3 0 = Some (AgeSelector.Num 19) ∧
  (18 ≤ 19 ≤ 65)%Z.
Proof.
  split; [lia|]. split; [reflexivity|].
  pose proof (handleDragEnd_reports_ages_in_range 64 18 65 3 0 ltac:(lia)) as W.
  change (AgeSelector.handleDragEnd 64 18 65 3 0)
    with (Some (AgeSelector.Num 19)) in W.
  exact (proj1 (proj2 W)).
Defined.

Lemma pointer_tick_is_current_age_witness :
  (18 ≤ 30 ≤ 65)%Z ∧
  AgeSelector.generateTicks 18 65
    !! Z.to_nat (AgeSelector.currentAgeIndex 18 65 30)
  = Some {| AgeSelector.age := 30; AgeSelector.cycleOffset := 0;
            AgeSelector.actualAge := 30 |}.
Proof.
  split; [lia|].
  exact (proj1 (proj2 (pointer_tick_is_current_age 18 65 30 ltac:(lia)))).
Defined.
